(** * KisaanPragati: the demand-ranking engine of [compute_top10_demand.py]

    A shallow embedding of [compute_top10] (and of the row grouping done by
    [load_day_averages] and [load_peak_values]) together with the properties
    the specification states about it.

    Modelling decisions.
    - A Python [dict] keeps insertion order and the engine iterates over its
      dictionaries, so a dictionary is an association list [odict] with
      unique keys: assigning to an existing key keeps its position, a new key
      goes to the end.
    - Python integers are [Z].  Strings are strings of bytes: [lower] folds
      the case of ASCII letters and [sorted_chars] sorts bytes, which is what
      [str.lower] and [sorted] do on ASCII crop names.
    - Python floats are reached only through the interface [Number]: the
      operations the engine applies to them ([+], [*], [/], the conversion of
      an integer count, truthiness, [>=] and [<]).  Two instances are given:
      [exact] (rationals, no rounding) and [binary64] (IEEE-754 doubles, what
      CPython computes with).  Theorems stated for every [Number] hold for
      both.
    - The conversion of a count or of a total of counts to a float, which
      [float * int] and [float / int] perform, raises [OverflowError] in
      CPython from the magnitude 2^1024 - 2^970 (about 1.8e308) on:
      [converts] tells whether an integer converts, [of_int] is the float
      it converts to.  The engine is embedded twice.  [compute_top10] and
      its parts take the conversion for total: they are the engine on the
      tables whose counts convert, and the statements about names, groups
      and results are made of them.  [Checked.compute_top10] and its parts
      are the same lines with the conversion that can fail; the statements
      about what the engine computes and whether it returns are made of
      them.  [compute_top10_agrees] relates the two on every table (the
      checked engine returns what the other returns, or raises
      [OverflowError]) and [compute_top10_converts] on the tables in range
      (they are equal).
    - The statements that can raise ([entries[0]], [d[k]], [/], the
      conversion) return a [result]; everything else is a total function.
    - Input rows are the rows of the two CSV files after the field parsing of
      the loaders (strip, [float()], [int()] with their fallbacks): a crop
      name, an optional average and a count; a crop name and an optional
      threshold ([None] when [float()] failed). *)

From Stdlib Require Import List String Ascii Bool ZArith QArith Qminmax Lia Lqa.
From Stdlib Require Import Permutation Sorted Floats.
From Stdlib Require Import Orders OrdersEx.
Import ListNotations.

Local Open Scope string_scope.
Local Open Scope Z_scope.
Local Open Scope list_scope.

(** ** Exceptions *)

Inductive exn : Type :=
| IndexError
| KeyError
| ZeroDivisionError
| OverflowError.

Inductive result (A : Type) : Type :=
| Ok (a : A)
| Raise (e : exn).

Arguments Ok {A} a.
Arguments Raise {A} e.

Definition bind {A B : Type} (m : result A) (k : A -> result B) : result B :=
  match m with
  | Ok a => k a
  | Raise e => Raise e
  end.

Notation "x <- m ;; k" := (bind m (fun x => k))
  (at level 61, m at next level, right associativity).

(** A [for] loop whose body may raise. *)
Fixpoint for_each {A S : Type} (body : S -> A -> result S) (l : list A) (s : S)
  : result S :=
  match l with
  | [] => Ok s
  | x :: l' => s' <- body s x ;; for_each body l' s'
  end.

(** ** Numbers *)

Class Number (F : Type) : Type := {
  nzero : F;                  (* 0.0 *)
  nadd : F -> F -> F;         (* x + y *)
  nmul : F -> F -> F;         (* x * y *)
  ndiv : F -> F -> F;         (* x / y, y not zero *)
  of_int : Z -> F;            (* the float an integer operand is converted to *)
  converts : Z -> bool;       (* that conversion does not raise OverflowError *)
  truthy : F -> bool;         (* bool(x): x != 0.0 *)
  nge : F -> F -> bool;       (* x >= y *)
  nlt : F -> F -> bool        (* x < y *)
}.

Infix "+!" := nadd (at level 50, left associativity).
Infix "*!" := nmul (at level 40, left associativity).
Infix "/!" := ndiv (at level 40, left associativity).

#[export] Instance exact : Number Q := {
  nzero := 0%Q;
  nadd := Qplus;
  nmul := Qmult;
  ndiv := Qdiv;
  of_int := inject_Z;
  converts := fun _ => true;
  truthy := fun x => negb (Qeq_bool x 0);
  nge := fun x y => Qle_bool y x;
  nlt := fun x y => negb (Qle_bool y x)
}.

(** The double nearest to an integer (ties to even), infinite past the range. *)
Definition float_of_Z (z : Z) : float :=
  SF2Prim (binary_normalize prec emax z 0 false).

(** CPython converts an [int] operand of [float * int] and [float / int] to
    the nearest double and raises [OverflowError] ("int too large to convert
    to float") when that is not finite: from 2^1024 - 2^970 on, in
    magnitude. *)
Definition converts64 (z : Z) : bool := Z.abs z <? 2 ^ 1024 - 2 ^ 970.

Definition binary64 : Number float := {|
  nzero := 0%float;
  nadd := PrimFloat.add;
  nmul := PrimFloat.mul;
  ndiv := PrimFloat.div;
  of_int := float_of_Z;
  converts := converts64;
  truthy := fun x => negb (PrimFloat.eqb x 0%float);
  nge := fun x y => PrimFloat.leb y x;
  nlt := fun x y => PrimFloat.ltb x y
|}.

(** ** Strings *)

(** [str.lower()], on ASCII letters. *)
Definition lower_ascii (c : ascii) : ascii :=
  let n := N_of_ascii c in
  if ((65 <=? n) && (n <=? 90))%N then ascii_of_N (n + 32) else c.

Fixpoint lower (s : string) : string :=
  match s with
  | EmptyString => EmptyString
  | String c s' => String (lower_ascii c) (lower s')
  end.

Fixpoint insert_char (c : ascii) (s : string) : string :=
  match s with
  | EmptyString => String c EmptyString
  | String d s' =>
      if (N_of_ascii c <=? N_of_ascii d)%N then String c s
      else String d (insert_char c s')
  end.

(** ["".join(sorted(key))] *)
Fixpoint sorted_chars (s : string) : string :=
  match s with
  | EmptyString => EmptyString
  | String c s' => insert_char c (sorted_chars s')
  end.

(** ** Insertion-ordered dictionaries *)

Definition odict (V : Type) : Type := list (string * V).

Definition od_keys {V : Type} (d : odict V) : list string := map fst d.

Fixpoint od_get {V : Type} (d : odict V) (k : string) : option V :=
  match d with
  | [] => None
  | (k', v) :: d' => if String.eqb k' k then Some v else od_get d' k
  end.

(** [k in d] *)
Definition od_mem {V : Type} (d : odict V) (k : string) : bool :=
  match od_get d k with
  | Some _ => true
  | None => false
  end.

(** [d[k]] *)
Definition od_getitem {V : Type} (d : odict V) (k : string) : result V :=
  match od_get d k with
  | Some v => Ok v
  | None => Raise KeyError
  end.

(** [d[k] = v] *)
Fixpoint od_set {V : Type} (d : odict V) (k : string) (v : V) : odict V :=
  match d with
  | [] => [(k, v)]
  | (k', v') :: d' =>
      if String.eqb k' k then (k', v) :: d' else (k', v') :: od_set d' k v
  end.

(** [l[0]] *)
Definition index0 {A : Type} (l : list A) : result A :=
  match l with
  | [] => Raise IndexError
  | x :: _ => Ok x
  end.

(** ** The engine *)

Section Engine.

Context {F : Type} {N : Number F}.

(** [(orig, avg, cnt)]: an observation entry, and also the value stored under
    a key of [merged] and [final_merged], [(name, avg, cnt)]. *)
Definition entry : Type := string * option F * Z.

(** [(orig_name, avg, threshold)] *)
Definition ranked : Type := string * F * F.

(** *** [load_day_averages], lines 27-28 and 37-40 *)

Definition load_day_step (d : odict (list entry)) (r : entry)
  : odict (list entry) :=
  let '(crop, avg, cnt) := r in
  if String.eqb crop "" then d
  else
    let key := lower crop in
    match od_get d key with
    | Some l => od_set d key (l ++ [(crop, avg, cnt)])
    | None => od_set d key [(crop, avg, cnt)]
    end.

Definition load_day_averages (rows : list entry) : odict (list entry) :=
  fold_left load_day_step rows [].

(** *** [load_peak_values], lines 51-57 *)

Definition load_peak_step (d : odict F) (r : string * option F) : odict F :=
  let '(crop, val) := r in
  if String.eqb crop "" then d
  else
    match val with
    | None => d
    | Some v => od_set d (lower crop) v
    end.

Definition load_peak_values (rows : list (string * option F)) : odict F :=
  fold_left load_peak_step rows [].

(** *** Aggregation of one key, lines 68-91 *)

(** [x / n] with [n] an [int] *)
Definition py_div (x : F) (n : Z) : result F :=
  if n =? 0 then Raise ZeroDivisionError else Ok (x /! of_int n).

(** The body of the loop of lines 71-80 on
    [(total_weighted, total_count, chosen_name)]. *)
Definition agg_step (st : F * Z * string) (e : entry) : F * Z * string :=
  let '(total_weighted, total_count, chosen_name) := st in
  let '(orig, avg, cnt) := e in
  match avg with
  | None => st
  | Some a =>
      if cnt =? 0 then (total_weighted +! a, total_count + 1, chosen_name)
      else (total_weighted +! a *! of_int cnt, total_count + cnt, orig)
  end.

Definition agg_loop (entries : list entry) (chosen_name : string)
  : F * Z * string :=
  fold_left agg_step entries (nzero, 0, chosen_name).

(** [cnt or 0] *)
Definition int_or_zero (n : Z) : Z := if n =? 0 then 0 else n.

(** The loop of lines 85-89: the first entry with an average. *)
Fixpoint pick (entries : list entry) : option entry :=
  match entries with
  | [] => None
  | (orig, Some a, cnt) :: _ => Some (orig, Some a, int_or_zero cnt)
  | (_, None, _) :: rest => pick rest
  end.

(** What lines 68-91 store under the key: [None] when nothing is stored. *)
Definition aggregate_key (entries : list entry) : result (option entry) :=
  first <- index0 entries ;;
  let '(total_weighted, total_count, chosen_name) :=
    agg_loop entries (fst (fst first)) in
  if 0 <? total_count then
    avg <- py_div total_weighted total_count ;;
    Ok (Some (chosen_name, Some avg, total_count))
  else Ok (pick entries).

Definition aggregate_step (merged : odict entry) (kv : string * list entry)
  : result (odict entry) :=
  let '(key, entries) := kv in
  r <- aggregate_key entries ;;
  match r with
  | Some rec => Ok (od_set merged key rec)
  | None => Ok merged
  end.

(** Lines 65-91. *)
Definition aggregate (day : odict (list entry)) : result (odict entry) :=
  for_each aggregate_step day [].

(** *** Anagram merge, lines 95-114 *)

(** The search of lines 98-102: the first key of [final_merged] with the
    sorted letters [s]. *)
Definition find_anagram (final_merged : odict entry) (s : string)
  : option string :=
  find (fun existing_key => String.eqb (sorted_chars existing_key) s)
       (od_keys final_merged).

(** [if found:] on [None] or a string *)
Definition found_truthy (found : option string) : bool :=
  match found with
  | None => false
  | Some EmptyString => false
  | Some (String _ _) => true
  end.

(** [x or 0.0] *)
Definition or_zero (x : option F) : F :=
  match x with
  | Some a => if truthy a then a else nzero
  | None => nzero
  end.

(** [x or y] *)
Definition py_or (x y : option F) : option F :=
  match x with
  | Some a => if truthy a then Some a else y
  | None => y
  end.

(** Lines 104-112: the record of the group after [(avg, cnt)] is folded into
    [prev]. *)
Definition fold_into (prev : entry) (avg : option F) (cnt : Z) : result entry :=
  let '(prev_orig, prev_avg, prev_cnt) := prev in
  let total_cnt := prev_cnt + cnt in
  new_avg <-
    (if 0 <? total_cnt then
       let total_weight :=
         or_zero prev_avg *! of_int prev_cnt +! or_zero avg *! of_int cnt in
       q <- py_div total_weight total_cnt ;; Ok (Some q)
     else Ok (py_or prev_avg avg)) ;;
  Ok (prev_orig, new_avg, total_cnt).

Definition merge_step (final_merged : odict entry) (kv : string * entry)
  : result (odict entry) :=
  let '(key, (orig_name, avg, cnt)) := kv in
  let s := sorted_chars key in
  let found := find_anagram final_merged s in
  if found_truthy found then
    match found with
    | Some fk =>
        prev <- od_getitem final_merged fk ;;
        r <- fold_into prev avg cnt ;;
        Ok (od_set final_merged fk r)
    | None => Ok final_merged
    end
  else Ok (od_set final_merged key (orig_name, avg, cnt)).

Definition merge_anagrams (merged : odict entry) : result (odict entry) :=
  for_each merge_step merged [].

(** *** Threshold filter, lines 116-124 *)

Definition match_step (peak : odict F) (matched : list ranked)
  (kv : string * entry) : result (list ranked) :=
  let '(key, (orig_name, avg, cnt)) := kv in
  match avg with
  | None => Ok matched
  | Some a =>
      if negb (od_mem peak key) then Ok matched
      else
        threshold <- od_getitem peak key ;;
        if nge a threshold then Ok (matched ++ [(orig_name, a, threshold)])
        else Ok matched
  end.

Definition threshold_filter (peak : odict F) (final_merged : odict entry)
  : result (list ranked) :=
  for_each (match_step peak) final_merged [].

(** *** Ranking, lines 126-128 *)

(** [lambda x: x[1]] *)
Definition sort_key (x : ranked) : F := snd (fst x).

(** [list.sort] is stable, and with [reverse=True] elements with equal keys
    still keep their order.  On keys that [<] orders totally every stable
    sort returns the same list; it is computed here by insertion, an element
    moving behind those of the rest that have a strictly greater key. *)
Fixpoint insert_desc (x : ranked) (l : list ranked) : list ranked :=
  match l with
  | [] => [x]
  | y :: l' =>
      if nlt (sort_key x) (sort_key y) then y :: insert_desc x l' else x :: l
  end.

Definition sort_desc (l : list ranked) : list ranked :=
  fold_right insert_desc [] l.

(** [matched.sort(key=lambda x: x[1], reverse=True); return matched[:10]] *)
Definition top10 (matched : list ranked) : list ranked :=
  firstn 10 (sort_desc matched).

(** *** [compute_top10] *)

Definition compute_top10 (day_rows : list entry)
  (peak_rows : list (string * option F)) : result (list ranked) :=
  let day := load_day_averages day_rows in
  let peak := load_peak_values peak_rows in
  merged <- aggregate day ;;
  final_merged <- merge_anagrams merged ;;
  matched <- threshold_filter peak final_merged ;;
  Ok (top10 matched).

End Engine.

Arguments entry F : clear implicits.
Arguments ranked F : clear implicits.

(** ** The engine with the conversion that can fail

    The definitions above take the conversion [of_int] of a count for
    total: they are the engine on the tables whose counts convert.  The
    definitions of [Checked] are the same lines of the source with the
    conversion as CPython does it, raising [OverflowError] when the integer
    operand of [float * int] or of [float / int] is too large. *)

Module Checked.

Section Engine.

Context {F : Type} {N : Number F}.

(** The conversion of the [int] operand of a float operation. *)
Definition to_float (n : Z) : result F :=
  if converts n then Ok (of_int n) else Raise OverflowError.

(** [x / n] with [n] an [int]: the operand is converted, then tested. *)
Definition py_div (x : F) (n : Z) : result F :=
  d <- to_float n ;;
  if n =? 0 then Raise ZeroDivisionError else Ok (x /! d).

(** The body of the loop of lines 71-80. *)
Definition agg_step (st : F * Z * string) (e : entry F)
  : result (F * Z * string) :=
  let '(total_weighted, total_count, chosen_name) := st in
  let '(orig, avg, cnt) := e in
  match avg with
  | None => Ok st
  | Some a =>
      if cnt =? 0 then Ok (total_weighted +! a, total_count + 1, chosen_name)
      else
        c <- to_float cnt ;;
        Ok (total_weighted +! a *! c, total_count + cnt, orig)
  end.

Definition agg_loop (entries : list (entry F)) (chosen_name : string)
  : result (F * Z * string) :=
  for_each agg_step entries (nzero, 0, chosen_name).

(** Lines 68-91. *)
Definition aggregate_key (entries : list (entry F)) : result (option (entry F)) :=
  first <- index0 entries ;;
  st <- agg_loop entries (fst (fst first)) ;;
  let '(total_weighted, total_count, chosen_name) := st in
  if 0 <? total_count then
    avg <- py_div total_weighted total_count ;;
    Ok (Some (chosen_name, Some avg, total_count))
  else Ok (pick entries).

Definition aggregate_step (merged : odict (entry F))
  (kv : string * list (entry F)) : result (odict (entry F)) :=
  let '(key, entries) := kv in
  r <- aggregate_key entries ;;
  match r with
  | Some rec => Ok (od_set merged key rec)
  | None => Ok merged
  end.

(** Lines 65-91. *)
Definition aggregate (day : odict (list (entry F))) : result (odict (entry F)) :=
  for_each aggregate_step day [].

(** Lines 104-112. *)
Definition fold_into (prev : entry F) (avg : option F) (cnt : Z)
  : result (entry F) :=
  let '(prev_orig, prev_avg, prev_cnt) := prev in
  let total_cnt := prev_cnt + cnt in
  new_avg <-
    (if 0 <? total_cnt then
       p <- to_float prev_cnt ;;
       c <- to_float cnt ;;
       let total_weight := or_zero prev_avg *! p +! or_zero avg *! c in
       q <- py_div total_weight total_cnt ;; Ok (Some q)
     else Ok (py_or prev_avg avg)) ;;
  Ok (prev_orig, new_avg, total_cnt).

Definition merge_step (final_merged : odict (entry F)) (kv : string * entry F)
  : result (odict (entry F)) :=
  let '(key, (orig_name, avg, cnt)) := kv in
  let s := sorted_chars key in
  let found := find_anagram final_merged s in
  if found_truthy found then
    match found with
    | Some fk =>
        prev <- od_getitem final_merged fk ;;
        r <- fold_into prev avg cnt ;;
        Ok (od_set final_merged fk r)
    | None => Ok final_merged
    end
  else Ok (od_set final_merged key (orig_name, avg, cnt)).

(** Lines 95-114. *)
Definition merge_anagrams (merged : odict (entry F)) : result (odict (entry F)) :=
  for_each merge_step merged [].

(** [compute_top10], lines 61-128, on the rows of the two files. *)
Definition compute_top10 (day_rows : list (entry F))
  (peak_rows : list (string * option F)) : result (list (ranked F)) :=
  let day := load_day_averages day_rows in
  let peak := load_peak_values peak_rows in
  merged <- aggregate day ;;
  final_merged <- merge_anagrams merged ;;
  matched <- threshold_filter peak final_merged ;;
  Ok (top10 matched).

End Engine.

End Checked.

(** ** Vocabulary of the specification *)

Section Vocabulary.

Context {F : Type} {N : Number F}.

Definition entry_avg (e : entry F) : option F := snd (fst e).
Definition entry_cnt (e : entry F) : Z := snd e.
Definition entry_name (e : entry F) : string := fst (fst e).

Definition has_avg (e : entry F) : bool :=
  match entry_avg e with
  | Some _ => true
  | None => false
  end.

(** The data model's sample counts are non-negative. *)
Definition counts_nonneg (entries : list (entry F)) : Prop :=
  forall e, In e entries -> 0 <= entry_cnt e.

(** The sums the loop of lines 71-80 reaches, and its total weight. *)
Definition running_fold (entries : list (entry F)) : F * Z :=
  fst (agg_loop entries "").

Definition total_count_of (entries : list (entry F)) : Z :=
  snd (running_fold entries).

(** What an entry adds to the weighted sum and to the weight total, in the
    words of the specification (section 4.2): a positive count weights the
    average, a zero count is one unweighted sample, an absent average adds
    nothing.  The specification has no negative counts; one adds nothing
    here. *)
Definition contribution (e : entry F) : option (F * Z) :=
  match entry_avg e with
  | Some a =>
      if 0 <? entry_cnt e then Some (a *! of_int (entry_cnt e), entry_cnt e)
      else if entry_cnt e =? 0 then Some (a, 1)
      else None
  | None => None
  end.

(** The running weighted sum and weight total of the specification. *)
Definition running_totals (entries : list (entry F)) : F * Z :=
  fold_left
    (fun acc e =>
       match contribution e with
       | Some (x, w) => (fst acc +! x, snd acc + w)
       | None => acc
       end)
    entries (nzero, 0).

(** The signature of a key and the weight of the keys with a signature. *)
Definition signature (key : string) : string := sorted_chars key.

Definition group_weight (merged : odict (entry F)) (s : string) : Z :=
  fold_right Z.add 0
    (map (fun kv => entry_cnt (snd kv))
       (filter (fun kv => String.eqb (signature (fst kv)) s) merged)).

(** The keys that are the first of their signature, in order. *)
Definition representatives (keys : list string) : list string :=
  fold_left
    (fun reps k =>
       if existsb (fun r => String.eqb (signature r) (signature k)) reps
       then reps else reps ++ [k])
    keys [].



(** What [load_day_averages] guarantees of [day]: keys are distinct and not
    empty, and no key has an empty list of entries. *)
Definition day_ok (d : odict (list (entry F))) : Prop :=
  NoDup (od_keys d) /\
  (forall k es, In (k, es) d -> k <> "" /\ es <> []).

(** What the loop of lines 67-91 keeps true of [merged]. *)
Definition merged_from (day : odict (list (entry F))) (merged : odict (entry F))
  : Prop :=
  NoDup (od_keys merged) /\
  forall k rec, In (k, rec) merged ->
    exists entries, In (k, entries) day /\ aggregate_key entries = Ok (Some rec).

(** What the merge loop keeps true of [final_merged] after the keys of
    [merged] it has seen: its keys are the first keys of each signature, and
    the record under a key carries the name stored for that key and the
    weight of all keys with its signature. *)
Definition merged_into (merged fm : odict (entry F)) : Prop :=
  od_keys fm = representatives (od_keys merged) /\
  forall r rec, od_get fm r = Some rec ->
    (exists avg0 cnt0, In (r, (entry_name rec, avg0, cnt0)) merged) /\
    entry_cnt rec = group_weight merged (signature r).

(** A record with an average and a weight of at least one. *)
Definition weighty (rec : entry F) : Prop :=
  entry_avg rec <> None /\ 1 <= entry_cnt rec.

(** What the body of the threshold loop appends for one record. *)
Definition candidate (peak : odict F) (kv : string * entry F) : list (ranked F) :=
  match entry_avg (snd kv), od_get peak (fst kv) with
  | Some a, Some thr =>
      if nge a thr then [(entry_name (snd kv), a, thr)] else []
  | _, _ => []
  end.

End Vocabulary.

(** Least and greatest of the averages that are present. *)
Fixpoint min_avg (entries : list (entry Q)) : option Q :=
  match entries with
  | [] => None
  | (_, Some a, _) :: rest =>
      match min_avg rest with
      | Some m => Some (Qmin a m)
      | None => Some a
      end
  | (_, None, _) :: rest => min_avg rest
  end.

Fixpoint max_avg (entries : list (entry Q)) : option Q :=
  match entries with
  | [] => None
  | (_, Some a, _) :: rest =>
      match max_avg rest with
      | Some m => Some (Qmax a m)
      | None => Some a
      end
  | (_, None, _) :: rest => max_avg rest
  end.

(** The observed average of a result [(orig_name, avg, threshold)], as line
    124 builds it. *)
Definition result_avg {F : Type} (x : ranked F) : F :=
  let '(_, avg, _) := x in avg.

(** Descending by the observed average, for an order [le] of the averages. *)
Definition by_avg {F : Type} (le : F -> F -> Prop) (x y : ranked F) : Prop :=
  le (result_avg y) (result_avg x).

(** The results whose average is [q], for a test [eqv] of equal averages. *)
Definition avg_is {F : Type} (eqv : F -> F -> bool) (q : F) (x : ranked F)
  : bool :=
  eqv q (result_avg x).

(** Descending by the observed average. *)
Definition desc (x y : ranked Q) : Prop := (result_avg y <= result_avg x)%Q.

(** The results whose average equals [q]. *)
Definition same_key (q : Q) (x : ranked Q) : bool := Qeq_bool (result_avg x) q.

(** The same on doubles, with the comparisons of IEEE 754. *)
Definition desc64 (x y : ranked float) : Prop :=
  PrimFloat.leb (result_avg y) (result_avg x) = true.

Definition same_key64 (q : float) (x : ranked float) : bool :=
  PrimFloat.eqb (result_avg x) q.

(** A double that is not a NaN: it compares with itself. *)
Definition not_nan (a : float) : Prop := PrimFloat.leb a a = true.

(** What the sort needs of [<] on the averages it meets: on the averages
    [ok], those that pass the test [avg >= threshold], it is the strict part
    of a total preorder [le], and it separates no two averages that [eqv]
    takes for equal. *)
Record sort_laws {F : Type} {N : Number F}
  (ok : F -> Prop) (le : F -> F -> Prop) (eqv : F -> F -> bool) : Prop := {
  lt_le : forall x y, nlt x y = true -> le x y;
  not_lt_le : forall x y, ok x -> ok y -> nlt x y = false -> le y x;
  le_trans : forall x y z, le x y -> le y z -> le x z;
  lt_not_eqv : forall q x y,
    nlt x y = true -> eqv q x = true -> eqv q y = true -> False;
  ge_ok : forall a thr, nge a thr = true -> ok a
}.

(** The magnitude of a count as the loops can add it to a total: a count of
    zero weighs one. *)
Definition magnitude {F : Type} (e : entry F) : Z :=
  Z.max 1 (Z.abs (entry_cnt e)).

Definition weight_bound {F : Type} (rows : list (entry F)) : Z :=
  fold_right (fun e acc => magnitude e + acc) 0 rows.

(** Every integer the engine can convert on these rows converts: the counts
    and the totals of counts are at most [weight_bound rows] in magnitude. *)
Definition in_range {F : Type} {N : Number F} (rows : list (entry F)) : Prop :=
  forall n, Z.abs n <= weight_bound rows -> converts n = true.

(** Sums over the values of a dictionary. *)
Definition od_sum {V : Type} (w : V -> Z) (d : odict V) : Z :=
  fold_right (fun kv acc => w (snd kv) + acc) 0 d.

Definition day_bound {F : Type} (day : odict (list (entry F))) : Z :=
  od_sum weight_bound day.

Definition records_bound {F : Type} (d : odict (entry F)) : Z :=
  od_sum (fun rec => Z.abs (entry_cnt rec)) d.

(** Case analysis on the comparisons of two or three specified floats. *)
Ltac sf_cases :=
  repeat match goal with
  | |- context [Pos.compare_cont Eq ?a ?b] =>
      change (Pos.compare_cont Eq a b) with (Pos.compare a b)
  | H : context [Pos.compare_cont Eq ?a ?b] |- _ =>
      change (Pos.compare_cont Eq a b) with (Pos.compare a b) in H
  | |- context [Z.compare ?a ?b] => destruct (Z.compare_spec a b)
  | |- context [Pos.compare ?a ?b] => destruct (Pos.compare_spec a b)
  | H : context [Z.compare ?a ?b] |- _ => destruct (Z.compare_spec a b)
  | H : context [Pos.compare ?a ?b] |- _ => destruct (Pos.compare_spec a b)
  end.

Ltac sf_solve := sf_cases; cbn in *; subst; try congruence; try lia.

(** The engine with the conversion that can fail does what the engine does,
    or raises [OverflowError]. *)
Definition agrees {A : Type} (checked total : result A) : Prop :=
  checked = total \/ checked = Raise OverflowError.

(** ** The loaders on rows of fields, and [compute_day_averages.py]

    The built-in conversions [float()] and [int()] of a field and
    [math.isfinite] are parameters: [None] stands for the [ValueError] the
    callers catch.  A row of [csv.DictReader] is a dictionary from column
    names to fields; a file is the list of its lines, [None] when it does not
    exist: the files are those that can be read as text, and the errors of
    reading one ([UnicodeDecodeError], an [OSError] other than
    [FileNotFoundError]) are not represented.  Strings are ASCII, as for the
    engine: [strip] removes the ASCII white space and names are ordered by
    their character codes. *)

(** [str.isspace] on ASCII: tab to carriage return, the four separators and
    the space. *)
Definition is_space (c : ascii) : bool :=
  let n := N_of_ascii c in
  (((9 <=? n) && (n <=? 13)) || ((28 <=? n) && (n <=? 32)))%N.

Fixpoint lstrip (s : string) : string :=
  match s with
  | EmptyString => EmptyString
  | String c s' => if is_space c then lstrip s' else s
  end.

Fixpoint rstrip (s : string) : string :=
  match s with
  | EmptyString => EmptyString
  | String c s' =>
      match rstrip s' with
      | EmptyString => if is_space c then EmptyString else String c EmptyString
      | r => String c r
      end
  end.

(** [s.strip()] *)
Definition strip (s : string) : string := rstrip (lstrip s).

(** ["," in s] *)
Fixpoint contains_comma (s : string) : bool :=
  match s with
  | EmptyString => false
  | String c s' => Ascii.eqb c "," || contains_comma s'
  end.

(** [s.split(",")] *)
Fixpoint split_comma (s : string) : list string :=
  match s with
  | EmptyString => [EmptyString]
  | String c s' =>
      if Ascii.eqb c "," then EmptyString :: split_comma s'
      else
        match split_comma s' with
        | p :: ps => String c p :: ps
        | [] => [String c EmptyString]
        end
  end.

(** [a < b] on strings: the lexical order of the character codes. *)
Definition str_lt (a b : string) : bool :=
  match String_as_OT.compare a b with
  | Lt => true
  | _ => false
  end.

(** [sorted(names)]: the names are those of one directory, no two equal, so
    every sort by [<] returns the same list; it is computed by insertion. *)
Fixpoint insert_name (x : string) (l : list string) : list string :=
  match l with
  | [] => [x]
  | y :: l' => if str_lt y x then y :: insert_name x l' else x :: l
  end.

Definition sorted_names (l : list string) : list string :=
  fold_right insert_name [] l.

(** What [os.listdir] finds under a name: something that is not a directory,
    or a directory, with the lines of its [Day.csv] when it has that file. *)
Inductive node : Type :=
| NotDirectory
| Directory (day : option (list string)).

Section Files.

Context {F : Type} {N : Number F}.

Variable float_of_string : string -> option F.
Variable int_of_string : string -> option Z.
Variable isfinite : F -> bool.

(** [x or y] on a field that is a string or [None] *)
Definition field_or (x : option string) (y : string) : string :=
  match x with
  | Some (String c s) => String c s
  | _ => y
  end.

(** [s not in (None, "", " ")] fails *)
Definition blank (s : string) : bool := String.eqb s "" || String.eqb s " ".

(** [load_day_averages], lines 24-36: the fields of one row. *)
Definition day_fields (r : odict string) : entry F :=
  let crop := strip (field_or (od_get r "crop") (field_or (od_get r "Crop") "")) in
  let avg_str := strip (field_or (od_get r "average") "") in
  let count_str := strip (field_or (od_get r "count") "") in
  let avg := if blank avg_str then None else float_of_string avg_str in
  let cnt :=
    if blank count_str then 0
    else match int_of_string count_str with
         | Some n => n
         | None => 0
         end in
  (crop, avg, cnt).

(** [load_day_averages] on the rows of the reader. *)
Definition load_day_averages_raw (rows : list (odict string))
  : odict (list (entry F)) :=
  load_day_averages (map day_fields rows).

(** [load_peak_values], lines 49-56: the fields of one row. *)
Definition peak_fields (r : odict string) : string * option F :=
  let crop := strip (field_or (od_get r "Crop") (field_or (od_get r "crop") "")) in
  let val :=
    strip (field_or (od_get r "Average_Peak_Value")
             (field_or (od_get r "average_peak_value") "")) in
  (crop, float_of_string val).

(** [load_peak_values] on the rows of the reader. *)
Definition load_peak_values_raw (rows : list (odict string)) : odict F :=
  load_peak_values (map peak_fields rows).

(** [read_second_column_values], lines 27-52: the body of the loop. *)
Definition read_line (values : list F) (raw : string) : list F :=
  let line := strip raw in
  if String.eqb line "" then values
  else
    let low := lower line in
    if prefix "category:" low then values
    else if prefix "week," low || prefix "time," low then values
    else if negb (contains_comma line) then values
    else
      let parts := map strip (split_comma line) in
      if (List.length parts <? 2)%nat then values
      else
        let val_str := last parts "" in
        match float_of_string val_str with
        | None => values
        | Some num =>
            if negb (truthy num) then values
            else if isfinite num then values ++ [num]
            else values
        end.

Definition read_second_column_values (file : option (list string)) : list F :=
  match file with
  | None => []
  | Some lines => fold_left read_line lines []
  end.

(** [sum(vals)]: the additions from the integer 0, left to right.  (From
    CPython 3.12 on [sum] also carries a correction of the rounding errors of
    floats; it leaves the exact sum unchanged.) *)
Definition py_sum (vals : list F) : F := fold_left nadd vals (of_int 0).

(** [compute_averages], lines 60-72: the body of the loop. *)
Definition averages_step (fs : odict node) (results : list (entry F))
  (name : string) : result (list (entry F)) :=
  match od_get fs name with
  | Some (Directory (Some lines)) =>
      let vals := read_second_column_values (Some lines) in
      match vals with
      | [] => Ok (results ++ [(name, None, 0)])
      | _ :: _ =>
          avg <- py_div (py_sum vals) (Z.of_nat (List.length vals)) ;;
          Ok (results ++ [(name, Some avg, Z.of_nat (List.length vals))])
      end
  | _ => Ok results
  end.

Definition compute_averages (fs : odict node) : result (list (entry F)) :=
  for_each (averages_step fs) (sorted_names (od_keys fs)) [].

End Files.

(** ** More vocabulary *)

(** The entries that set the display name of a key: those with an average
    and a count that is not zero. *)
Definition counted {F : Type} (e : entry F) : bool :=
  has_avg e && negb (entry_cnt e =? 0).

(** The name the loop of lines 71-80 ends with: the name of the last entry
    that has an average and a count that is not zero, and the name of the
    first entry (line 70) when there is none. *)
Definition display_name {F : Type} (entries : list (entry F)) : string :=
  match find counted (rev entries), entries with
  | Some e, _ => entry_name e
  | None, e :: _ => entry_name e
  | None, [] => ""
  end.

(** The sum of average * weight over the keys with a signature. *)
Definition group_wsum (merged : odict (entry Q)) (s : string) : Q :=
  fold_right Qplus 0%Q
    (map (fun kv =>
            match entry_avg (snd kv) with
            | Some a => (a * inject_Z (entry_cnt (snd kv)))%Q
            | None => 0%Q
            end)
       (filter (fun kv => String.eqb (signature (fst kv)) s) merged)).

(** A name of the listing that is a directory with a [Day.csv]. *)
Definition has_day (fs : odict node) (name : string) : bool :=
  match od_get fs name with
  | Some (Directory (Some _)) => true
  | _ => false
  end.

(** The row [compute_averages] appends for a name: none, or one. *)
Definition average_rows {F : Type} {N : Number F}
  (float_of_string : string -> option F) (isfinite : F -> bool)
  (fs : odict node) (name : string) : list (entry F) :=
  match od_get fs name with
  | Some (Directory (Some lines)) =>
      let vals := read_second_column_values float_of_string isfinite (Some lines) in
      match vals with
      | [] => [(name, None, 0)]
      | _ :: _ =>
          [(name,
            Some (py_sum vals /! of_int (Z.of_nat (List.length vals))),
            Z.of_nat (List.length vals))]
      end
  | _ => []
  end.

(** [a <= b] and [a < b] on names. *)
Definition name_le (a b : string) : Prop := str_lt b a = false.
Definition name_lt (a b : string) : Prop := str_lt a b = true.

(** A row of the thresholds that can be stored under the key [k]. *)
Definition peak_row_for {F : Type} (k : string) (r : string * option F) : bool :=
  negb (String.eqb (fst r) "") && String.eqb (lower (fst r)) k &&
  match snd r with
  | Some _ => true
  | None => false
  end.

(** A row of the observations that is stored under the key [k]. *)
Definition day_row_for {F : Type} (k : string) (r : entry F) : bool :=
  negb (String.eqb (entry_name r) "") && String.eqb (lower (entry_name r)) k.

(** ** Dictionaries and loops *)

Section Dictionaries.

Context {V : Type}.

Lemma od_get_set_same (d : odict V) k v : od_get (od_set d k v) k = Some v.
Proof.
  induction d as [|[k' v'] d IH]; simpl.
  - now rewrite String.eqb_refl.
  - destruct (String.eqb k' k) eqn:E; simpl; rewrite E; auto.
Qed.

Lemma od_get_set_other (d : odict V) k k' v :
  k <> k' -> od_get (od_set d k v) k' = od_get d k'.
Proof.
  intros Hne. induction d as [|[k0 v0] d IH]; simpl.
  - destruct (String.eqb_spec k k'); congruence.
  - destruct (String.eqb_spec k0 k) as [->|Hk]; simpl.
    + destruct (String.eqb_spec k k'); congruence.
    + now rewrite IH.
Qed.

Lemma od_get_In (d : odict V) k v : od_get d k = Some v -> In (k, v) d.
Proof.
  induction d as [|[k0 v0] d IH]; simpl; [discriminate|].
  destruct (String.eqb_spec k0 k) as [->|Hk]; intros H.
  - injection H as ->. now left.
  - right; auto.
Qed.

Lemma od_get_None (d : odict V) k : od_get d k = None <-> ~ In k (od_keys d).
Proof.
  induction d as [|[k0 v0] d IH]; simpl; [tauto|].
  destruct (String.eqb_spec k0 k) as [->|Hk].
  - split; [discriminate|tauto].
  - rewrite IH. tauto.
Qed.

Lemma od_get_Some_key (d : odict V) k v :
  od_get d k = Some v -> In k (od_keys d).
Proof.
  intros H. apply od_get_In in H. apply (in_map fst) in H. exact H.
Qed.

Lemma In_od_get (d : odict V) k v :
  NoDup (od_keys d) -> In (k, v) d -> od_get d k = Some v.
Proof.
  induction d as [|[k0 v0] d IH]; simpl; [tauto|].
  intros Hnd [H|H]; inversion Hnd as [|? ? Hni Hnd']; subst.
  - injection H as -> ->. now rewrite String.eqb_refl.
  - destruct (String.eqb_spec k0 k) as [->|Hk]; auto.
    exfalso. apply Hni. apply (in_map fst) in H. exact H.
Qed.

Lemma od_keys_set_present (d : odict V) k v :
  In k (od_keys d) -> od_keys (od_set d k v) = od_keys d.
Proof.
  induction d as [|[k0 v0] d IH]; simpl; [tauto|].
  destruct (String.eqb_spec k0 k) as [->|Hk]; simpl; auto.
  intros [H|H]; [congruence|]. now rewrite IH.
Qed.

Lemma od_keys_set_absent (d : odict V) k v :
  ~ In k (od_keys d) -> od_keys (od_set d k v) = od_keys d ++ [k].
Proof.
  induction d as [|[k0 v0] d IH]; simpl; auto.
  destruct (String.eqb_spec k0 k) as [->|Hk]; simpl; [tauto|].
  intros H. rewrite IH; tauto.
Qed.

Lemma od_set_NoDup (d : odict V) k v :
  NoDup (od_keys d) -> NoDup (od_keys (od_set d k v)).
Proof.
  intros Hnd. destruct (in_dec string_dec k (od_keys d)) as [Hin|Hni].
  - now rewrite od_keys_set_present.
  - rewrite od_keys_set_absent by assumption.
    apply NoDup_app; auto.
    + repeat constructor. simpl. tauto.
    + intros x Hx [<-|[]]. contradiction.
Qed.

End Dictionaries.

Lemma od_set_In {V : Type} (d : odict V) k v k' v' :
  In (k', v') (od_set d k v) -> (k', v') = (k, v) \/ In (k', v') d.
Proof.
  induction d as [|[k0 v0] d IH]; simpl.
  - intros [H|[]]. now left.
  - destruct (String.eqb_spec k0 k) as [->|Hk]; simpl.
    + intros [H|H]; [left|right; right]; auto.
    + intros [H|H]; [right; left|]; auto.
      destruct (IH H); [left|right; right]; auto.
Qed.

Section Loops.

Context {A S : Type} (body : S -> A -> result S).

Lemma for_each_snoc (l : list A) (x : A) (s : S) :
  for_each body (l ++ [x]) s = (s' <- for_each body l s ;; body s' x).
Proof.
  revert s. induction l as [|y l IH]; intros s; simpl.
  - now destruct (body s x).
  - destruct (body s y); simpl; auto.
Qed.

(** A loop whose body keeps an invariant and does not raise under it runs to
    its end. *)
Lemma for_each_invariant (P : S -> Prop) (l : list A) :
  (forall s x, In x l -> P s -> exists s', body s x = Ok s' /\ P s') ->
  forall s, P s -> exists s', for_each body l s = Ok s' /\ P s'.
Proof.
  induction l as [|x l IH]; intros Hbody s Hs; simpl.
  - now exists s.
  - destruct (Hbody s x (or_introl eq_refl) Hs) as (s1 & -> & Hs1). simpl.
    apply IH; auto. intros s2 y Hy. apply Hbody. now right.
Qed.

End Loops.

(** ** Strings *)

Lemma insert_char_nonempty c s : insert_char c s <> "".
Proof. destruct s; simpl; [|destruct (_ <=? _)%N]; discriminate. Qed.

Lemma sorted_chars_empty s : sorted_chars s = "" -> s = "".
Proof.
  destruct s as [|c s]; simpl; auto.
  intros H. now apply insert_char_nonempty in H.
Qed.

Lemma lower_nonempty s : s <> "" -> lower s <> "".
Proof. destruct s; simpl; congruence. Qed.

(** ** The loaders *)

Section Loaders.

Context {F : Type} {N : Number F}.

Lemma load_day_step_ok d (r : entry F) :
  day_ok d -> day_ok (load_day_step d r).
Proof.
  intros [Hnd Hne]. destruct r as [[crop avg] cnt]. unfold load_day_step.
  destruct (String.eqb_spec crop "") as [->|Hc]; [now split|].
  assert (Hl : lower crop <> "") by now apply lower_nonempty.
  destruct (od_get d (lower crop)) as [l|] eqn:E; split;
    try (now apply od_set_NoDup);
    intros k es Hin; apply od_set_In in Hin as [Hin|Hin];
    try (now apply Hne); injection Hin as -> ->; split; auto.
  - now destruct l.
  - discriminate.
Qed.

Lemma load_day_averages_ok (rows : list (entry F)) :
  day_ok (load_day_averages rows).
Proof.
  unfold load_day_averages.
  assert (H0 : day_ok ([] : odict (list (entry F)))).
  { split; [constructor|intros ? ? []]. }
  revert H0. generalize ([] : odict (list (entry F))).
  induction rows as [|r rows IH]; intros d Hd; simpl; auto.
  apply IH. now apply load_day_step_ok.
Qed.

(** Every entry of [day] is one of the rows. *)
Lemma load_day_averages_rows (rows : list (entry F)) k es e :
  In (k, es) (load_day_averages rows) -> In e es -> In e rows.
Proof.
  unfold load_day_averages.
  enough (G : forall (rs : list (entry F)) d,
             (forall k es e, In (k, es) d -> In e es -> In e rows) ->
             (forall r, In r rs -> In r rows) ->
             forall k es e, In (k, es) (fold_left load_day_step rs d) ->
                            In e es -> In e rows).
  { apply G; [intros ? ? ? []|auto]. }
  clear. induction rs as [|r rs IH]; intros d Hd Hrs k es e; simpl; [apply Hd|].
  apply IH; [|intros; apply Hrs; now right].
  clear k es e. intros k es e Hin He.
  assert (Hr : In r rows) by (apply Hrs; now left).
  destruct r as [[crop avg] cnt]. unfold load_day_step in Hin.
  destruct (String.eqb crop ""); [eapply Hd; eauto|].
  destruct (od_get d (lower crop)) as [l|] eqn:E;
    apply od_set_In in Hin as [Hin|Hin]; try (eapply Hd; now eauto);
    injection Hin as -> ->.
  - apply in_app_or in He as [He|[<-|[]]]; auto.
    apply (Hd (lower crop) l e); [now apply od_get_In|assumption].
  - destruct He as [<-|[]]; auto.
Qed.

End Loaders.

(** ** Aggregation of one key *)

Section Aggregator.

Context {F : Type} {N : Number F}.

Implicit Types (e : entry F) (entries : list (entry F)).

Lemma agg_fold_totals entries tw tc n m :
  fst (fold_left agg_step entries (tw, tc, n))
  = fst (fold_left agg_step entries (tw, tc, m)).
Proof.
  revert tw tc n m. induction entries as [|[[orig avg] cnt] es IH];
    intros tw tc n m; simpl; auto.
  destruct avg as [a|]; [destruct (cnt =? 0)|]; auto.
Qed.

Lemma total_count_of_name entries n :
  snd (fst (agg_loop entries n)) = total_count_of entries.
Proof.
  unfold total_count_of, running_fold, agg_loop.
  now rewrite (agg_fold_totals _ _ _ n "").
Qed.

(** The division of line 82 is guarded: with entries at hand,
    [aggregate_key] does not raise. *)
Lemma aggregate_key_cons e es :
  aggregate_key (e :: es)
  = let st := agg_loop (e :: es) (entry_name e) in
    if 0 <? total_count_of (e :: es) then
      Ok (Some (snd st,
                Some (fst (fst st) /! of_int (total_count_of (e :: es))),
                total_count_of (e :: es)))
    else Ok (pick (e :: es)).
Proof.
  unfold aggregate_key. cbn [index0 bind].
  rewrite <- (total_count_of_name (e :: es) (entry_name e)).
  unfold entry_name.
  destruct (agg_loop (e :: es) (fst (fst e))) as [[tw tc] name]. cbn [fst snd].
  destruct (Z.ltb_spec 0 tc) as [Hpos|Hle]; auto.
  unfold py_div. destruct (Z.eqb_spec tc 0); [lia|reflexivity].
Qed.

Lemma aggregate_key_total entries :
  entries <> [] -> exists r, aggregate_key entries = Ok r.
Proof.
  destruct entries as [|e es]; [congruence|]. intros _.
  rewrite aggregate_key_cons. cbv zeta.
  destruct (0 <? _); eauto.
Qed.

Lemma int_or_zero_id n : int_or_zero n = n.
Proof. unfold int_or_zero. destruct (Z.eqb_spec n 0); congruence. Qed.

(** The fallback loop returns the first entry that has an average, as it is. *)
Lemma pick_find entries : pick entries = find has_avg entries.
Proof.
  induction entries as [|[[orig avg] cnt] es IH]; simpl; auto.
  destruct avg as [a|]; cbn; auto. now rewrite int_or_zero_id.
Qed.

Lemma find_has_avg_none entries :
  find has_avg entries = None <-> forall e, In e entries -> entry_avg e = None.
Proof.
  split.
  - intros H e He. pose proof (find_none _ _ H e He) as Hn.
    unfold has_avg in Hn. now destruct (entry_avg e).
  - intros H. induction entries as [|e es IH]; simpl; auto.
    unfold has_avg at 1. rewrite (H e (or_introl eq_refl)).
    apply IH. intros; apply H; now right.
Qed.

(** The loop of lines 71-80 against the running totals of the specification,
    for counts that are not negative. *)
Lemma agg_fold_running entries tw tc n :
  counts_nonneg entries ->
  fst (fold_left agg_step entries (tw, tc, n))
  = fold_left
      (fun acc e =>
         match contribution e with
         | Some (x, w) => (fst acc +! x, snd acc + w)
         | None => acc
         end)
      entries (tw, tc).
Proof.
  revert tw tc n. induction entries as [|[[orig avg] cnt] es IH];
    intros tw tc n Hnn; simpl; auto.
  assert (Hc : 0 <= cnt) by (apply (Hnn (orig, avg, cnt)); now left).
  assert (Hes : counts_nonneg es) by (intros e He; apply Hnn; now right).
  unfold contribution at 2. cbn [entry_avg entry_cnt fst snd].
  destruct avg as [a|]; [|now apply IH].
  destruct (Z.eqb_spec cnt 0) as [->|Hne]; cbn [Z.ltb Z.compare].
  - now apply IH.
  - destruct (Z.ltb_spec 0 cnt); [|lia]. now apply IH.
Qed.

Lemma running_fold_totals entries :
  counts_nonneg entries -> running_fold entries = running_totals entries.
Proof.
  intros H. unfold running_fold, agg_loop, running_totals.
  now apply agg_fold_running.
Qed.

(** With counts that are not negative the weight total never decreases, and
    an entry that has an average adds at least one. *)
Lemma agg_fold_count_mono entries tw tc n :
  counts_nonneg entries ->
  tc <= snd (fst (fold_left agg_step entries (tw, tc, n))) /\
  ((exists e, In e entries /\ has_avg e = true) ->
   tc + 1 <= snd (fst (fold_left agg_step entries (tw, tc, n)))).
Proof.
  revert tw tc n. induction entries as [|[[orig avg] cnt] es IH];
    intros tw tc n Hnn; simpl.
  - split; [lia|]. intros (e & [] & _).
  - assert (Hc : 0 <= cnt) by (apply (Hnn (orig, avg, cnt)); now left).
    assert (Hes : counts_nonneg es) by (intros e He; apply Hnn; now right).
    destruct avg as [a|].
    + destruct (Z.eqb_spec cnt 0) as [->|Hne].
      * destruct (IH (tw +! a) (tc + 1) n Hes) as [H1 _]. split; [lia|intros _; lia].
      * destruct (IH (tw +! a *! of_int cnt) (tc + cnt) orig Hes) as [H1 _].
        split; [lia|intros _; lia].
    + destruct (IH tw tc n Hes) as [H1 H2]. split; auto.
      intros (e & [<-|He] & Ha); [discriminate|]. apply H2. eauto.
Qed.

(** Entries without any average leave the loop where it started. *)
Lemma agg_fold_absent entries st :
  (forall e, In e entries -> entry_avg e = None) ->
  fold_left agg_step entries st = st.
Proof.
  revert st. induction entries as [|[[orig avg] cnt] es IH]; intros st H; simpl; auto.
  pose proof (H (orig, avg, cnt) (or_introl eq_refl)) as Ha. cbn in Ha. subst avg.
  destruct st as [[tw tc] n]. cbn. apply IH. intros; apply H; now right.
Qed.

Lemma aggregate_key_absent entries :
  entries <> [] ->
  (forall e, In e entries -> entry_avg e = None) ->
  aggregate_key entries = Ok None.
Proof.
  destruct entries as [|e es]; [congruence|]. intros _ H.
  rewrite aggregate_key_cons. cbv zeta.
  unfold total_count_of, running_fold, agg_loop.
  rewrite agg_fold_absent by assumption.
  cbn [fst snd Z.ltb Z.compare]. rewrite pick_find.
  f_equal. now apply find_has_avg_none.
Qed.

(** The two ways out of lines 81-91. *)
Lemma aggregate_key_cases entries :
  entries <> [] ->
  (0 < total_count_of entries /\
   exists name,
     aggregate_key entries
     = Ok (Some (name,
                 Some (fst (running_fold entries) /! of_int (total_count_of entries)),
                 total_count_of entries))) \/
  (total_count_of entries <= 0 /\
   aggregate_key entries = Ok (find has_avg entries)).
Proof.
  destruct entries as [|e es]; [congruence|]. intros _.
  rewrite aggregate_key_cons. cbv zeta. rewrite pick_find.
  destruct (Z.ltb_spec 0 (total_count_of (e :: es))) as [Hpos|Hle]; [left|right];
    split; auto.
  exists (snd (agg_loop (e :: es) (entry_name e))).
  unfold running_fold, agg_loop.
  now rewrite (agg_fold_totals _ _ _ (entry_name e) "").
Qed.

(** A record that is stored has an average. *)
Lemma aggregate_key_avg entries name avg cnt :
  aggregate_key entries = Ok (Some (name, avg, cnt)) -> avg <> None.
Proof.
  intros H. assert (Hne : entries <> []) by (intros ->; discriminate).
  destruct (aggregate_key_cases entries Hne) as [(_ & n & E)|(_ & E)];
    rewrite E in H.
  - congruence.
  - injection H as H.
    apply find_some in H as [_ H]. unfold has_avg, entry_avg in H. cbn in H.
    destruct avg; congruence.
Qed.

(** With counts that are not negative, a record that is stored weighs at
    least one. *)
Lemma aggregate_key_weight entries name avg cnt :
  counts_nonneg entries ->
  aggregate_key entries = Ok (Some (name, avg, cnt)) -> 1 <= cnt.
Proof.
  intros Hnn H. assert (Hne : entries <> []) by (intros ->; discriminate).
  destruct (aggregate_key_cases entries Hne) as [(Hpos & n & E)|(Hle & E)];
    rewrite E in H.
  - assert (cnt = total_count_of entries) by congruence. lia.
  - exfalso. injection H as H. apply find_some in H as [Hin Ha].
    destruct (agg_fold_count_mono entries nzero 0 "" Hnn) as [_ H2].
    unfold total_count_of, running_fold, agg_loop in Hle.
    assert (0 + 1 <= snd (fst (fold_left agg_step entries (nzero, 0, ""))))
      by (apply H2; eauto).
    lia.
Qed.

End Aggregator.

(** ** The aggregation stage *)

Section AggregateStage.

Context {F : Type} {N : Number F}.

Lemma od_unique {V : Type} (d : odict V) k v v' :
  NoDup (od_keys d) -> In (k, v) d -> In (k, v') d -> v = v'.
Proof.
  intros Hnd H H'. apply (In_od_get d k v Hnd) in H.
  apply (In_od_get d k v' Hnd) in H'. congruence.
Qed.

Lemma aggregate_step_from day merged kv :
  In kv day -> snd kv <> [] -> merged_from day merged ->
  exists merged', aggregate_step merged kv = Ok merged' /\ merged_from day merged'.
Proof.
  destruct kv as [key entries]. cbn [snd]. intros Hin Hne [Hnd Hrec].
  destruct (aggregate_key_total entries Hne) as [r Hr].
  unfold aggregate_step. rewrite Hr. cbn [bind].
  destruct r as [rec|]; eexists; split; try reflexivity; [|now split].
  split; [now apply od_set_NoDup|].
  intros k rec' H. apply od_set_In in H as [H|H]; [|now apply Hrec].
  injection H as -> ->. eauto.
Qed.

(** On a dictionary built by [load_day_averages] the stage does not raise. *)
Lemma aggregate_ok (day : odict (list (entry F))) :
  day_ok day -> exists merged, aggregate day = Ok merged /\ merged_from day merged.
Proof.
  intros [Hnd Hne]. unfold aggregate.
  apply (for_each_invariant aggregate_step (merged_from day)).
  - intros merged [k es] Hin Hm. apply aggregate_step_from; auto.
    cbn. now apply (Hne k es).
  - split; [constructor|intros ? ? []].
Qed.

(** A key none of whose entries has an average is not in [merged]. *)
Lemma merged_from_absent day merged k entries :
  day_ok day -> merged_from day merged ->
  In (k, entries) day ->
  (forall e, In e entries -> entry_avg e = None) ->
  od_get merged k = None.
Proof.
  intros [Hnd Hne] [_ Hrec] Hin Habs.
  destruct (od_get merged k) as [rec|] eqn:E; auto. exfalso.
  apply od_get_In in E. destruct (Hrec k rec E) as (es & Hes & Hagg).
  assert (es = entries) by (eapply od_unique; eauto). subst es.
  rewrite aggregate_key_absent in Hagg; [discriminate| |assumption].
  now apply (Hne k entries).
Qed.

End AggregateStage.

(** ** The anagram merge *)

Section Signatures.

Lemma find_existsb {A : Type} (f : A -> bool) (l : list A) :
  existsb f l = match find f l with Some _ => true | None => false end.
Proof. induction l as [|x l IH]; simpl; auto. now destruct (f x). Qed.

Lemma representatives_snoc ks k :
  representatives (ks ++ [k])
  = if existsb (fun r => String.eqb (signature r) (signature k))
         (representatives ks)
    then representatives ks else representatives ks ++ [k].
Proof. unfold representatives. now rewrite fold_left_app. Qed.

Lemma representatives_incl ks r : In r (representatives ks) -> In r ks.
Proof.
  induction ks as [|k ks IH] using rev_ind; [intros []|].
  rewrite representatives_snoc, in_app_iff.
  destruct (existsb _ _); [auto|]. rewrite in_app_iff. tauto.
Qed.

Lemma representatives_cover ks k :
  In k ks -> exists r, In r (representatives ks) /\ signature r = signature k.
Proof.
  induction ks as [|k0 ks IH] using rev_ind; [intros []|].
  rewrite in_app_iff, representatives_snoc. intros Hin.
  destruct (existsb _ (representatives ks)) eqn:E.
  - destruct Hin as [Hin|[<-|[]]]; auto.
    apply existsb_exists in E as (r & Hr & Heq).
    apply String.eqb_eq in Heq. eauto.
  - destruct Hin as [Hin|[<-|[]]].
    + destruct (IH Hin) as (r & Hr & Hs). exists r. rewrite in_app_iff. auto.
    + exists k0. rewrite in_app_iff. simpl. auto.
Qed.

(** One representative per signature. *)
Lemma representatives_NoDup ks : NoDup (map signature (representatives ks)).
Proof.
  induction ks as [|k ks IH] using rev_ind; [constructor|].
  rewrite representatives_snoc.
  destruct (existsb _ (representatives ks)) eqn:E; auto.
  rewrite map_app. apply NoDup_app; auto.
  - repeat constructor. simpl. tauto.
  - intros s Hs [<-|[]]. apply in_map_iff in Hs as (r & Hr & Hin).
    assert (existsb (fun r => String.eqb (signature r) (signature k))
              (representatives ks) = true); [|congruence].
    apply existsb_exists. exists r. split; auto. now apply String.eqb_eq.
Qed.

End Signatures.

Section MergeStage.

Context {F : Type} {N : Number F}.

Implicit Types (fm merged : odict (entry F)) (prev rec : entry F).

Lemma find_anagram_Some fm s fk :
  find_anagram fm s = Some fk -> In fk (od_keys fm) /\ signature fk = s.
Proof.
  intros H. apply find_some in H as [Hin Heq]. split; auto.
  now apply String.eqb_eq in Heq.
Qed.

Lemma find_anagram_None fm s k :
  find_anagram fm s = None -> In k (od_keys fm) -> signature k <> s.
Proof.
  intros H Hin Heq. pose proof (find_none _ _ H k Hin) as Hn. cbn in Hn.
  apply String.eqb_neq in Hn. now apply Hn.
Qed.

(** Lines 104-112 do not raise; the name of the group is kept, the weights
    add up, and the new average is the weighted one when the total weight is
    positive and [prev_avg or avg] otherwise. *)
Lemma fold_into_spec prev avg cnt :
  exists new_avg,
    fold_into prev avg cnt
    = Ok (entry_name prev, new_avg, entry_cnt prev + cnt) /\
    (0 < entry_cnt prev + cnt ->
     new_avg
     = Some ((or_zero (entry_avg prev) *! of_int (entry_cnt prev)
              +! or_zero avg *! of_int cnt)
             /! of_int (entry_cnt prev + cnt))) /\
    (entry_cnt prev + cnt <= 0 -> new_avg = py_or (entry_avg prev) avg).
Proof.
  destruct prev as [[pn pa] pc]. cbn [entry_name entry_avg entry_cnt fst snd].
  unfold fold_into.
  destruct (Z.ltb_spec 0 (pc + cnt)) as [Hpos|Hle].
  - unfold py_div. destruct (Z.eqb_spec (pc + cnt) 0); [lia|].
    cbn [bind]. eexists; split; [reflexivity|]. split; [auto|lia].
  - cbn [bind]. eexists; split; [reflexivity|]. split; [lia|auto].
Qed.

(** The three ways through the body of the merge loop: a new group, a fold
    into the group found, and the search finding the empty key, which
    [if found:] takes for nothing found. *)
Lemma merge_step_cases fm key name avg cnt :
  (find_anagram fm (signature key) = None /\
   merge_step fm (key, (name, avg, cnt)) = Ok (od_set fm key (name, avg, cnt)))
  \/
  (exists fk prev new_avg,
     find_anagram fm (signature key) = Some fk /\ fk <> "" /\
     od_get fm fk = Some prev /\
     fold_into prev avg cnt
     = Ok (entry_name prev, new_avg, entry_cnt prev + cnt) /\
     merge_step fm (key, (name, avg, cnt))
     = Ok (od_set fm fk (entry_name prev, new_avg, entry_cnt prev + cnt)))
  \/
  (find_anagram fm (signature key) = Some "" /\ key = "" /\
   merge_step fm (key, (name, avg, cnt)) = Ok (od_set fm key (name, avg, cnt))).
Proof.
  unfold merge_step. fold (signature key).
  destruct (find_anagram fm (signature key)) as [fk|] eqn:E; [|now left].
  destruct (find_anagram_Some _ _ _ E) as [Hin Hsig].
  right. destruct fk as [|c fk]; [right|left].
  - repeat split; auto. symmetry in Hsig. now apply sorted_chars_empty in Hsig.
  - cbn [found_truthy].
    destruct (od_get fm (String c fk)) as [prev|] eqn:G.
    + destruct (fold_into_spec prev avg cnt) as (new_avg & Hf & _).
      exists (String c fk), prev, new_avg. unfold od_getitem. rewrite G.
      cbn [bind]. rewrite Hf. cbn [bind]. repeat split; auto. discriminate.
    + apply od_get_None in G. contradiction.
Qed.

Lemma merge_step_total fm kv : exists fm', merge_step fm kv = Ok fm'.
Proof.
  destruct kv as [key [[name avg] cnt]].
  destruct (merge_step_cases fm key name avg cnt)
    as [(_ & H)|[(fk & prev & a & _ & _ & _ & _ & H)|(_ & _ & H)]]; eauto.
Qed.

(** The merge stage does not raise. *)
Lemma merge_anagrams_total merged : exists fm, merge_anagrams merged = Ok fm.
Proof.
  destruct (for_each_invariant merge_step (fun _ => True) merged) with (s := @nil (string * entry F))
    as (fm & H & _); eauto.
  intros s x _ _. destruct (merge_step_total s x) as [fm' H]. eauto.
Qed.

Lemma group_weight_app merged merged' s :
  group_weight (merged ++ merged') s
  = group_weight merged s + group_weight merged' s.
Proof.
  unfold group_weight. rewrite filter_app, map_app.
  induction (map _ (filter _ merged)) as [|x l IH]; simpl; lia.
Qed.

Lemma group_weight_none merged s :
  (forall k, In k (od_keys merged) -> signature k <> s) ->
  group_weight merged s = 0.
Proof.
  intros H. unfold group_weight.
  induction merged as [|[k rec] m IH]; simpl; auto.
  destruct (String.eqb_spec (signature k) s) as [Heq|Hne].
  - exfalso. apply (H k); simpl; auto.
  - apply IH. intros k' Hk'. apply H. simpl; auto.
Qed.

Lemma group_weight_one k rec s :
  group_weight [(k, rec)] s = if String.eqb (signature k) s then entry_cnt rec else 0.
Proof.
  unfold group_weight. simpl. destruct (String.eqb _ _); simpl; lia.
Qed.

Lemma group_weight_perm merged merged' s :
  Permutation merged merged' -> group_weight merged s = group_weight merged' s.
Proof.
  intros H. unfold group_weight.
  induction H as [|x l l' H IH|x y l|l l' l'' H IH H' IH']; simpl; auto.
  - destruct (String.eqb _ _); simpl; lia.
  - destruct (String.eqb (signature (fst x)) s), (String.eqb (signature (fst y)) s);
      simpl; lia.
  - lia.
Qed.

End MergeStage.

Lemma NoDup_map_eq {A B : Type} (f : A -> B) (l : list A) x y :
  NoDup (map f l) -> In x l -> In y l -> f x = f y -> x = y.
Proof.
  induction l as [|a l IH]; simpl; [tauto|].
  intros Hnd Hx Hy Hf. inversion Hnd as [|? ? Hni Hnd']; subst.
  destruct Hx as [->|Hx], Hy as [->|Hy]; auto.
  - exfalso. apply Hni. rewrite Hf. now apply in_map.
  - exfalso. apply Hni. rewrite <- Hf. now apply in_map.
Qed.

Section MergeInvariant.

Context {F : Type} {N : Number F}.

Lemma od_keys_app (d d' : odict (entry F)) :
  od_keys (d ++ d') = od_keys d ++ od_keys d'.
Proof. apply map_app. Qed.

(** On distinct keys the merge stage runs to its end and leaves one record
    per signature, under the first key of the signature. *)
Lemma merge_anagrams_into (merged : odict (entry F)) :
  NoDup (od_keys merged) ->
  exists fm, merge_anagrams merged = Ok fm /\ merged_into merged fm.
Proof.
  induction merged as [|[key [[name avg] cnt]] p IH] using rev_ind; intros Hnd.
  - exists []. split; [reflexivity|]. split; [reflexivity|]. discriminate.
  - rewrite od_keys_app in Hnd. cbn in Hnd.
    assert (Hndp : NoDup (od_keys p)) by now apply NoDup_app_remove_r in Hnd.
    assert (Hkey : ~ In key (od_keys p)).
    { intros Hin. apply NoDup_remove_2 in Hnd. rewrite app_nil_r in Hnd. auto. }
    destruct (IH Hndp) as (fm & Hrun & Hkeys & Hrec). clear IH.
    unfold merge_anagrams in *. rewrite for_each_snoc, Hrun. cbn [bind].
    pose proof (representatives_NoDup (od_keys p)) as Hsig.
    rewrite <- Hkeys in Hsig.
    destruct (merge_step_cases fm key name avg cnt)
      as [(Hnone & Hstep)|[(fk & prev & a & Hfk & Hne & Hget & _ & Hstep)|(Hfk & -> & _)]].
    + (* a new group *)
      assert (Hfresh : forall k, In k (od_keys p) -> signature k <> signature key).
      { intros k Hk Heq. destruct (representatives_cover _ _ Hk) as (r & Hr & Hs).
        rewrite <- Hkeys in Hr.
        apply (find_anagram_None fm (signature key) r); congruence. }
      assert (Hnew : ~ In key (od_keys fm)).
      { intros Hin. now apply (find_anagram_None fm (signature key) key). }
      eexists. split; [exact Hstep|]. split.
      * rewrite od_keys_set_absent, od_keys_app by assumption.
        change (od_keys [(key, (name, avg, cnt))]) with [key].
        rewrite representatives_snoc, <- Hkeys, find_existsb.
        unfold find_anagram, signature in Hnone |- *. now rewrite Hnone.
      * intros r rec. rewrite group_weight_app, group_weight_one.
        destruct (string_dec key r) as [<-|Hr].
        -- rewrite od_get_set_same. intros H. injection H as <-.
           rewrite String.eqb_refl, group_weight_none by assumption.
           cbn [entry_name entry_cnt fst snd]. split; [|lia].
           exists avg, cnt. apply in_or_app. right. now left.
        -- rewrite od_get_set_other by assumption. intros H.
           destruct (Hrec r rec H) as ((a0 & c0 & Hin) & Hw). split.
           ++ exists a0, c0. apply in_or_app. now left.
           ++ destruct (String.eqb_spec (signature key) (signature r)) as [Heq|_]; [|lia].
              exfalso. apply od_get_Some_key in H.
              now apply (find_anagram_None fm (signature key) r).
    + (* a fold into the group of [fk] *)
      destruct (find_anagram_Some _ _ _ Hfk) as [Hin Hs].
      eexists. split; [exact Hstep|]. split.
      * rewrite od_keys_set_present, od_keys_app by assumption.
        change (od_keys [(key, (name, avg, cnt))]) with [key].
        rewrite representatives_snoc, <- Hkeys, find_existsb.
        unfold find_anagram, signature in Hfk |- *. now rewrite Hfk.
      * intros r rec. rewrite group_weight_app, group_weight_one.
        destruct (string_dec fk r) as [<-|Hr].
        -- rewrite od_get_set_same. intros H. injection H as <-.
           destruct (Hrec fk prev Hget) as ((a0 & c0 & Hp) & Hw).
           cbn [entry_name entry_cnt fst snd]. rewrite Hs in Hw |- *.
           rewrite String.eqb_refl. split; [|lia].
           exists a0, c0. apply in_or_app. now left.
        -- rewrite od_get_set_other by assumption. intros H.
           destruct (Hrec r rec H) as ((a0 & c0 & Hp) & Hw). split.
           ++ exists a0, c0. apply in_or_app. now left.
           ++ destruct (String.eqb_spec (signature key) (signature r)) as [Heq|_]; [|lia].
              exfalso. apply Hr. apply od_get_Some_key in H.
              apply (NoDup_map_eq signature (od_keys fm)); auto. congruence.
    + (* the empty key found: it would be a key seen twice *)
      exfalso. apply Hkey. apply representatives_incl. rewrite <- Hkeys.
      now apply (find_anagram_Some fm (signature "")).
Qed.

End MergeInvariant.

Section Presence.

Context {F : Type} {N : Number F}.

Lemma merge_step_weighty (fm : odict (entry F)) kv fm' :
  (forall r rec, In (r, rec) fm -> weighty rec) -> weighty (snd kv) ->
  merge_step fm kv = Ok fm' ->
  forall r rec, In (r, rec) fm' -> weighty rec.
Proof.
  destruct kv as [key [[name avg] cnt]]. cbn [snd]. intros Hfm Hkv Hstep r rec Hin.
  destruct (merge_step_cases fm key name avg cnt)
    as [(_ & E)|[(fk & prev & a & _ & _ & Hget & Hfold & E)|(_ & _ & E)]];
    pose proof (eq_trans (eq_sym E) Hstep) as E'; injection E' as <-;
    apply od_set_In in Hin as [Hin|Hin]; eauto; injection Hin as _ ->; auto.
  assert (Hprev : weighty prev) by (apply (Hfm fk), od_get_In, Hget).
  destruct Hprev as [_ Hpc], Hkv as [_ Hc]. cbn [entry_cnt snd] in Hc.
  destruct (fold_into_spec prev avg cnt) as (a' & Hf & Hpos & _).
  assert (a = a') by congruence. subst a'.
  split; cbn [entry_avg entry_cnt fst snd]; [|lia].
  rewrite Hpos by lia. discriminate.
Qed.

(** Merging records that have an average and weigh at least one leaves
    records that do. *)
Lemma merge_anagrams_weighty (merged fm : odict (entry F)) :
  (forall k rec, In (k, rec) merged -> weighty rec) ->
  merge_anagrams merged = Ok fm ->
  forall r rec, In (r, rec) fm -> weighty rec.
Proof.
  intros Hm Hrun.
  destruct (for_each_invariant merge_step
              (fun fm => forall r rec, In (r, rec) fm -> weighty rec) merged)
    with (s := @nil (string * entry F)) as (fm' & Hrun' & Hfm').
  - intros s [k rec] Hin Hs. destruct (merge_step_total s (k, rec)) as [s' Hs'].
    exists s'. split; auto. eapply merge_step_weighty; eauto. cbn. eauto.
  - intros ? ? [].
  - pose proof (eq_trans (eq_sym Hrun') Hrun) as E. injection E as <-.
    exact Hfm'.
Qed.

Lemma match_step_candidate (peak : odict F) matched kv :
  match_step peak matched kv = Ok (matched ++ candidate peak kv).
Proof.
  destruct kv as [k [[name avg] cnt]]. unfold match_step, candidate.
  cbn [entry_avg entry_name fst snd].
  destruct avg as [a|]; [|now rewrite app_nil_r].
  unfold od_mem, od_getitem.
  destruct (od_get peak k) as [thr|]; cbn [negb bind]; [|now rewrite app_nil_r].
  destruct (nge a thr); [reflexivity|now rewrite app_nil_r].
Qed.

(** The threshold filter does not raise, and keeps the order of
    [final_merged]. *)
Lemma threshold_filter_candidates (peak : odict F) (fm : odict (entry F)) :
  threshold_filter peak fm = Ok (flat_map (candidate peak) fm).
Proof.
  unfold threshold_filter. change (flat_map (candidate peak) fm)
    with ([] ++ flat_map (candidate peak) fm).
  generalize (@nil (ranked F)). induction fm as [|kv fm IH]; intros acc.
  - cbn. now rewrite app_nil_r.
  - cbn [for_each flat_map]. rewrite match_step_candidate. cbn [bind].
    rewrite IH. now rewrite app_assoc.
Qed.

Lemma candidate_In (peak : odict F) kv name a thr :
  In (name, a, thr) (candidate peak kv) <->
  exists cnt, snd kv = (name, Some a, cnt) /\
              od_get peak (fst kv) = Some thr /\ nge a thr = true.
Proof.
  destruct kv as [k [[n avg] cnt]]. unfold candidate.
  cbn [entry_avg entry_name fst snd]. split.
  - destruct avg as [a'|]; [|intros []].
    destruct (od_get peak k) as [t|]; [|intros []].
    destruct (nge a' t) eqn:G; [|intros []].
    intros [H|[]]. injection H as -> -> ->. eauto.
  - intros (c & H & Hp & Hg). injection H as -> -> _. rewrite Hp, Hg. now left.
Qed.

End Presence.

(** ** The ranking *)

Lemma firstn_incl {A : Type} n (l : list A) : incl (firstn n l) l.
Proof.
  intros x Hx. rewrite <- (firstn_skipn n l). apply in_or_app. now left.
Qed.

Lemma firstn_sorted {A : Type} (R : A -> A -> Prop) n l :
  StronglySorted R l -> StronglySorted R (firstn n l).
Proof.
  revert l. induction n as [|n IH]; intros l Hs; [constructor|].
  destruct l as [|x l]; [constructor|]. simpl.
  inversion Hs as [|? ? Hs' Hall]; subst. constructor; auto.
  rewrite Forall_forall in *. intros y Hy. apply Hall.
  now apply (firstn_incl n l).
Qed.

Lemma filter_firstn {A : Type} (p : A -> bool) n l :
  exists m, filter p (firstn n l) = firstn m (filter p l).
Proof.
  revert l. induction n as [|n IH]; intros l; [now exists 0%nat|].
  destruct l as [|x l]; [now exists 0%nat|].
  destruct (IH l) as [m Hm]. cbn [firstn filter].
  destruct (p x); [exists (S m); cbn; now rewrite Hm|now exists m].
Qed.

Lemma sorted_app_inv {A : Type} (R : A -> A -> Prop) (l1 l2 : list A) :
  StronglySorted R (l1 ++ l2) ->
  forall x y, In x l1 -> In y l2 -> R x y.
Proof.
  induction l1 as [|a l1 IH]; intros Hs x y Hx Hy; [destruct Hx|].
  cbn [app] in Hs. inversion Hs as [|? ? Hs' Hall]; subst.
  destruct Hx as [<-|Hx]; [|now apply IH].
  rewrite Forall_forall in Hall. apply Hall, in_or_app. now right.
Qed.

Section Ranking.

Context {F : Type} {N : Number F}.

Variable ok : F -> Prop.
Variable le : F -> F -> Prop.
Variable eqv : F -> F -> bool.

(** The key of the sort is the observed average. *)
Lemma sort_key_avg (x : ranked F) : sort_key x = result_avg x.
Proof. now destruct x as [[name a] thr]. Qed.

Lemma insert_desc_perm (x : ranked F) l : Permutation (insert_desc x l) (x :: l).
Proof.
  induction l as [|y l IH]; cbn [insert_desc]; auto.
  destruct (nlt (sort_key x) (sort_key y)); auto.
  apply perm_trans with (y :: x :: l); [now apply perm_skip|apply perm_swap].
Qed.

Lemma sort_desc_perm (l : list (ranked F)) : Permutation (sort_desc l) l.
Proof.
  induction l as [|x l IH]; cbn [sort_desc fold_right]; auto.
  fold (sort_desc l). apply perm_trans with (x :: sort_desc l);
    [apply insert_desc_perm|now apply perm_skip].
Qed.

Lemma insert_desc_sorted (L : sort_laws ok le eqv) (x : ranked F) l :
  Forall (fun y => ok (result_avg y)) (x :: l) ->
  StronglySorted (by_avg le) l -> StronglySorted (by_avg le) (insert_desc x l).
Proof.
  induction l as [|y l IH]; intros Hok Hs; cbn [insert_desc].
  - repeat constructor.
  - inversion Hs as [|? ? Hs' Hall]; subst.
    inversion Hok as [|? ? Hx Hok']; subst.
    inversion Hok' as [|? ? Hy Hl]; subst.
    rewrite !sort_key_avg.
    destruct (nlt (result_avg x) (result_avg y)) eqn:E.
    + constructor; [apply IH; auto|].
      apply (Permutation_Forall (Permutation_sym (insert_desc_perm x l))).
      constructor; auto. unfold by_avg. now apply (lt_le _ _ _ L).
    + assert (Hyx : le (result_avg y) (result_avg x))
        by now apply (not_lt_le _ _ _ L).
      constructor; auto. constructor; auto.
      eapply Forall_impl; [|exact Hall]. intros z Hz. unfold by_avg in *.
      eapply (le_trans _ _ _ L); eauto.
Qed.

Lemma sort_desc_sorted (L : sort_laws ok le eqv) (l : list (ranked F)) :
  Forall (fun y => ok (result_avg y)) l -> StronglySorted (by_avg le) (sort_desc l).
Proof.
  induction l as [|x l IH]; intros Hok; cbn [sort_desc fold_right];
    [constructor|].
  inversion Hok as [|? ? Hx Hl]; subst. fold (sort_desc l).
  apply insert_desc_sorted; auto. constructor; auto.
  apply (Permutation_Forall (Permutation_sym (sort_desc_perm l))), Hl.
Qed.

(** Insertion never carries an element over one with an equal average. *)
Lemma insert_desc_filter (L : sort_laws ok le eqv) q (x : ranked F) l :
  filter (avg_is eqv q) (insert_desc x l) = filter (avg_is eqv q) (x :: l).
Proof.
  induction l as [|y l IH]; auto.
  cbn [insert_desc]. rewrite !sort_key_avg.
  destruct (nlt (result_avg x) (result_avg y)) eqn:E; auto.
  cbn [filter] in *. rewrite IH.
  destruct (avg_is eqv q x) eqn:Hx, (avg_is eqv q y) eqn:Hy; auto.
  exfalso. apply (lt_not_eqv _ _ _ L q _ _ E Hx Hy).
Qed.

Lemma sort_desc_filter (L : sort_laws ok le eqv) q (l : list (ranked F)) :
  filter (avg_is eqv q) (sort_desc l) = filter (avg_is eqv q) l.
Proof.
  induction l as [|x l IH]; auto.
  cbn [sort_desc fold_right]. rewrite insert_desc_filter by assumption.
  cbn [filter]. fold (sort_desc l). now rewrite IH.
Qed.

(** The list returned for matches whose averages pass the threshold test:
    sorted, bounded, a part of the matches, stable. *)
Lemma top10_ranked (L : sort_laws ok le eqv) (matched : list (ranked F)) :
  Forall (fun y => ok (result_avg y)) matched ->
  StronglySorted (by_avg le) (top10 matched) /\
  List.length (top10 matched) = Nat.min 10 (List.length matched) /\
  (List.length (top10 matched) <= 10)%nat /\
  incl (top10 matched) matched /\
  forall q, exists m,
    filter (avg_is eqv q) (top10 matched)
    = firstn m (filter (avg_is eqv q) matched).
Proof.
  intros Hok. unfold top10. repeat split.
  - now apply firstn_sorted, sort_desc_sorted.
  - rewrite length_firstn. f_equal. apply Permutation_length, sort_desc_perm.
  - apply firstn_le_length.
  - intros x Hx. apply firstn_incl in Hx.
    revert Hx. apply Permutation_in, sort_desc_perm.
  - intros q. destruct (filter_firstn (avg_is eqv q) 10 (sort_desc matched)) as [m Hm].
    exists m. now rewrite Hm, sort_desc_filter.
Qed.

(** The cut keeps the greatest: the sorted matches are those returned
    followed by those dropped, and no dropped one is above a returned one. *)
Lemma top10_greatest (L : sort_laws ok le eqv) (matched : list (ranked F)) :
  Forall (fun y => ok (result_avg y)) matched ->
  Permutation (top10 matched ++ skipn 10 (sort_desc matched)) matched /\
  List.length (skipn 10 (sort_desc matched)) = (List.length matched - 10)%nat /\
  forall x y, In x (top10 matched) -> In y (skipn 10 (sort_desc matched)) ->
    le (result_avg y) (result_avg x).
Proof.
  intros Hok. unfold top10. split; [|split].
  - rewrite firstn_skipn. apply sort_desc_perm.
  - rewrite length_skipn.
    now rewrite (Permutation_length (sort_desc_perm matched)).
  - apply (sorted_app_inv (by_avg le)). rewrite firstn_skipn.
    now apply sort_desc_sorted.
Qed.

(** Every match of the threshold loop has an average that passed the test. *)
Lemma candidates_ok (L : sort_laws ok le eqv) (peak : odict F) (fm : odict (entry F)) :
  Forall (fun y => ok (result_avg y)) (flat_map (candidate peak) fm).
Proof.
  apply Forall_forall. intros [[name a] thr] Hin.
  apply in_flat_map in Hin as (kv & _ & Hc).
  apply candidate_In in Hc as (cnt & _ & _ & Hge).
  apply (ge_ok _ _ _ L a thr Hge).
Qed.

End Ranking.

(** *** The two arithmetics *)

Lemma nlt_exact (x y : Q) : nlt x y = true <-> (x < y)%Q.
Proof.
  cbn. rewrite negb_true_iff, <- not_true_iff_false, Qle_bool_iff.
  split; [apply Qnot_le_lt|apply Qlt_not_le].
Qed.

Lemma exact_sort_laws :
  sort_laws (fun _ : Q => True) Qle (fun q a => Qeq_bool a q).
Proof.
  split.
  - intros x y H. apply nlt_exact in H. now apply Qlt_le_weak.
  - intros x y _ _ H. apply Qnot_lt_le. intros G. apply nlt_exact in G. congruence.
  - intros x y z. apply Qle_trans.
  - intros q x y H Hx Hy. apply nlt_exact in H. apply Qeq_bool_iff in Hx, Hy.
    rewrite Hx, Hy in H. now apply Qlt_irrefl in H.
  - trivial.
Qed.

Lemma SFltb_leb x y : SFltb x y = true -> SFleb x y = true.
Proof. unfold SFltb, SFleb. now destruct (SFcompare x y) as [[]|]. Qed.

Lemma SFleb_total x y :
  SFleb x x = true -> SFleb y y = true -> SFltb x y = false -> SFleb y x = true.
Proof.
  unfold SFleb, SFltb, SFcompare.
  destruct x as [[]|[]| |[] mx ex], y as [[]|[]| |[] my ey];
    cbn; try congruence; intros H1 H2 H3; sf_solve.
Qed.

Lemma SFleb_trans x y z :
  SFleb x y = true -> SFleb y z = true -> SFleb x z = true.
Proof.
  unfold SFleb, SFcompare.
  destruct x as [[]|[]| |[] mx ex], y as [[]|[]| |[] my ey],
           z as [[]|[]| |[] mz ez];
    cbn; try congruence; intros H1 H2; sf_solve.
Qed.

Lemma SFltb_eqb q x y :
  SFltb x y = true -> SFeqb x q = true -> SFeqb y q = true -> False.
Proof.
  unfold SFeqb, SFltb, SFcompare.
  destruct x as [[]|[]| |[] mx ex], y as [[]|[]| |[] my ey],
           q as [[]|[]| |[] mq eq];
    cbn; try congruence; intros H1 H2 H3; sf_solve.
Qed.

Lemma SFleb_right x y : SFleb x y = true -> SFleb y y = true.
Proof.
  unfold SFleb, SFcompare.
  destruct x as [[]|[]| |[] mx ex], y as [[]|[]| |[] my ey];
    cbn; try congruence; intros H1; sf_solve.
Qed.

(** On doubles that are not NaN, [<] is the strict part of the total
    preorder [<=], and a NaN never passes [avg >= threshold]. *)
Lemma binary64_sort_laws :
  sort_laws (N := binary64) not_nan
    (fun x y => PrimFloat.leb x y = true) (fun q a => PrimFloat.eqb a q).
Proof.
  unfold not_nan. split; cbn [nlt nge binary64].
  - intros x y. rewrite ltb_spec, leb_spec. apply SFltb_leb.
  - intros x y. rewrite ltb_spec, !leb_spec. apply SFleb_total.
  - intros x y z. rewrite !leb_spec. apply SFleb_trans.
  - intros q x y. rewrite ltb_spec, !eqb_spec. apply SFltb_eqb.
  - intros a thr. rewrite !leb_spec. apply SFleb_right.
Qed.

Section Bounds.

Local Open Scope Q_scope.

(** The sums of the loop stay between the bounds of the averages times the
    weight. *)
Lemma agg_fold_bounds (entries : list (entry Q)) lo hi tw tc n :
  counts_nonneg entries ->
  (forall e a, In e entries -> entry_avg e = Some a -> lo <= a <= hi) ->
  (0 <= tc)%Z ->
  lo * inject_Z tc <= tw <= hi * inject_Z tc ->
  let st := fold_left agg_step entries (tw, tc, n) in
  (0 <= snd (fst st))%Z /\
  lo * inject_Z (snd (fst st)) <= fst (fst st) <= hi * inject_Z (snd (fst st)).
Proof.
  revert tw tc n. induction entries as [|[[orig avg] cnt] es IH];
    intros tw tc n Hnn Hb Htc Htw; cbn [fold_left]; [now split|].
  assert (Hc : (0 <= cnt)%Z) by (apply (Hnn (orig, avg, cnt)); now left).
  assert (Hes : counts_nonneg es) by (intros e He; apply Hnn; now right).
  assert (Hbs : forall e a, In e es -> entry_avg e = Some a -> lo <= a <= hi)
    by (intros e a He; apply Hb; now right).
  cbn [agg_step]. destruct avg as [a|]; [|now apply IH].
  pose proof (Hb (orig, Some a, cnt) a (or_introl eq_refl) eq_refl) as [Hlo Hhi].
  destruct (Z.eqb_spec cnt 0) as [->|Hne]; apply IH; auto; try lia; cbn.
  - rewrite inject_Z_plus. change (inject_Z 1) with 1. cbn [nadd exact]. lra.
  - rewrite inject_Z_plus.
    assert (Hq : 0 <= inject_Z cnt) by (change 0 with (inject_Z 0); now rewrite <- Zle_Qle).
    split.
    + assert ((lo * inject_Z cnt <= a * inject_Z cnt))
        by now apply Qmult_le_compat_r.
      lra.
    + assert ((a * inject_Z cnt <= hi * inject_Z cnt))
        by now apply Qmult_le_compat_r.
      lra.
Qed.

Lemma min_avg_le (entries : list (entry Q)) e a :
  In e entries -> entry_avg e = Some a ->
  exists m, min_avg entries = Some m /\ m <= a.
Proof.
  induction entries as [|[[o avg] c] es IH]; [intros []|].
  intros [<-|Hin] Ha.
  - cbn in Ha. subst avg. cbn. destruct (min_avg es) as [m|].
    + exists (Qmin a m). split; auto. apply Q.le_min_l.
    + exists a. split; auto. apply Qle_refl.
  - destruct (IH Hin Ha) as (m & Hm & Hle). cbn. rewrite Hm.
    destruct avg as [b|]; eauto.
    exists (Qmin b m). split; auto. eapply Qle_trans; [apply Q.le_min_r|auto].
Qed.

Lemma max_avg_ge (entries : list (entry Q)) e a :
  In e entries -> entry_avg e = Some a ->
  exists m, max_avg entries = Some m /\ a <= m.
Proof.
  induction entries as [|[[o avg] c] es IH]; [intros []|].
  intros [<-|Hin] Ha.
  - cbn in Ha. subst avg. cbn. destruct (max_avg es) as [m|].
    + exists (Qmax a m). split; auto. apply Q.le_max_l.
    + exists a. split; auto. apply Qle_refl.
  - destruct (IH Hin Ha) as (m & Hm & Hle). cbn. rewrite Hm.
    destruct avg as [b|]; eauto.
    exists (Qmax b m). split; auto. eapply Qle_trans; [|apply Q.le_max_r]. auto.
Qed.

End Bounds.

(** ** The stages together *)

Lemma find_snoc {A : Type} (f : A -> bool) (l : list A) (x : A) :
  find f (l ++ [x])
  = match find f l with
    | Some y => Some y
    | None => if f x then Some x else None
    end.
Proof. induction l as [|y l IH]; simpl; auto. now destruct (f y). Qed.

(** A representative is the first key with its signature. *)
Lemma representatives_first ks r :
  In r (representatives ks) ->
  find (fun k => String.eqb (signature k) (signature r)) ks = Some r.
Proof.
  induction ks as [|k ks IH] using rev_ind; [intros []|].
  rewrite representatives_snoc, find_snoc.
  destruct (existsb _ (representatives ks)) eqn:E.
  - intros H. now rewrite IH.
  - rewrite in_app_iff. intros [H|[<-|[]]]; [now rewrite IH|].
    rewrite String.eqb_refl.
    destruct (find _ ks) as [k'|] eqn:G; auto. exfalso.
    apply find_some in G as [Hin Heq]. apply String.eqb_eq in Heq.
    destruct (representatives_cover ks k' Hin) as (r & Hr & Hs).
    assert (existsb (fun r => String.eqb (signature r) (signature k))
              (representatives ks) = true); [|congruence].
    apply existsb_exists. exists r. split; auto. apply String.eqb_eq. congruence.
Qed.

Section Pipeline.

Context {F : Type} {N : Number F}.

(** On every table of rows the first two stages run to their end. *)
Lemma stages_run (rows : list (entry F)) :
  exists merged fm,
    aggregate (load_day_averages rows) = Ok merged /\
    merged_from (load_day_averages rows) merged /\
    merge_anagrams merged = Ok fm /\
    merged_into merged fm.
Proof.
  destruct (aggregate_ok _ (load_day_averages_ok rows)) as (merged & Hagg & Hfrom).
  destruct (merge_anagrams_into merged (proj1 Hfrom)) as (fm & Hrun & Hinto).
  exists merged, fm. auto.
Qed.

Lemma merged_into_NoDup (merged fm : odict (entry F)) :
  merged_into merged fm -> NoDup (od_keys fm).
Proof.
  intros [Hkeys _]. apply (NoDup_map_inv signature). rewrite Hkeys.
  apply representatives_NoDup.
Qed.

End Pipeline.

(** ** The conversion that can fail *)

Lemma for_each_fold {A S : Type} (f : S -> A -> S) (l : list A) (s : S) :
  for_each (fun s x => Ok (f s x)) l s = Ok (fold_left f l s).
Proof. revert s. induction l as [|x l IH]; intros s; cbn; auto. Qed.

Lemma agrees_bind {A B : Type} (c t : result A) (kc kt : A -> result B) :
  agrees c t -> (forall a, agrees (kc a) (kt a)) ->
  agrees (bind c kc) (bind t kt).
Proof.
  intros [-> | ->] H; [|now right].
  destruct t as [a|e]; cbn [bind]; [apply H|now left].
Qed.

Lemma for_each_agrees {A S : Type} (bc bt : S -> A -> result S) :
  (forall s x, agrees (bc s x) (bt s x)) ->
  forall l s, agrees (for_each bc l s) (for_each bt l s).
Proof.
  intros H l. induction l as [|x l IH]; intros s; cbn [for_each];
    [now left|apply agrees_bind; auto].
Qed.

Lemma agrees_Ok {A : Type} (c t : result A) (a : A) :
  agrees c t -> c = Ok a -> t = Ok a.
Proof. intros [-> | ->] H; [exact H|discriminate]. Qed.

Lemma agrees_Raise {A : Type} (c : result A) (a : A) e :
  agrees c (Ok a) -> c = Raise e -> e = OverflowError.
Proof. intros [-> | ->] H; [discriminate|congruence]. Qed.

(** *** Sums over a dictionary *)

Lemma od_sum_cons {V : Type} (w : V -> Z) (kv : string * V) (d : odict V) :
  od_sum w (kv :: d) = w (snd kv) + od_sum w d.
Proof. reflexivity. Qed.

Lemma od_sum_nonneg {V : Type} (w : V -> Z) (d : odict V) :
  (forall x, 0 <= w x) -> 0 <= od_sum w d.
Proof.
  intros Hw. induction d as [|[k v] d IH]; [cbn; lia|].
  rewrite od_sum_cons. pose proof (Hw v). cbn [snd]. lia.
Qed.

Lemma od_sum_app {V : Type} (w : V -> Z) (d d' : odict V) :
  od_sum w (d ++ d') = od_sum w d + od_sum w d'.
Proof.
  induction d as [|[k v] d IH]; [reflexivity|].
  cbn [app]. rewrite !od_sum_cons, IH. lia.
Qed.

Lemma od_sum_get {V : Type} (w : V -> Z) (d : odict V) k v :
  (forall x, 0 <= w x) -> od_get d k = Some v -> w v <= od_sum w d.
Proof.
  intros Hw. induction d as [|[k' v'] d IH]; cbn [od_get]; [discriminate|].
  rewrite od_sum_cons. cbn [snd].
  pose proof (od_sum_nonneg w d Hw). pose proof (Hw v').
  destruct (String.eqb k' k); intros G.
  - injection G as ->. lia.
  - apply IH in G. lia.
Qed.

Lemma od_sum_In {V : Type} (w : V -> Z) (d : odict V) k v :
  (forall x, 0 <= w x) -> In (k, v) d -> w v <= od_sum w d.
Proof.
  intros Hw. induction d as [|[k' v'] d IH]; [intros []|].
  rewrite od_sum_cons. cbn [snd].
  pose proof (od_sum_nonneg w d Hw). pose proof (Hw v').
  intros [G|G].
  - injection G as _ ->. lia.
  - apply IH in G. lia.
Qed.

Lemma od_sum_set_get {V : Type} (w : V -> Z) (d : odict V) k v old :
  od_get d k = Some old -> od_sum w (od_set d k v) = od_sum w d - w old + w v.
Proof.
  induction d as [|[k' v'] d IH]; cbn [od_get od_set]; [discriminate|].
  destruct (String.eqb k' k); intros H; rewrite !od_sum_cons; cbn [snd].
  - injection H as ->. lia.
  - apply IH in H. lia.
Qed.

Lemma od_sum_set_new {V : Type} (w : V -> Z) (d : odict V) k v :
  od_get d k = None -> od_sum w (od_set d k v) = od_sum w d + w v.
Proof.
  induction d as [|[k' v'] d IH]; cbn [od_get od_set]; [intros _; cbn; lia|].
  destruct (String.eqb k' k); intros H; [discriminate|].
  rewrite !od_sum_cons. cbn [snd]. apply IH in H. lia.
Qed.

Lemma od_sum_set_le {V : Type} (w : V -> Z) (d : odict V) k v :
  (forall x, 0 <= w x) -> od_sum w (od_set d k v) <= od_sum w d + w v.
Proof.
  intros Hw. destruct (od_get d k) as [old|] eqn:E.
  - rewrite (od_sum_set_get w d k v old E). pose proof (Hw old). lia.
  - rewrite (od_sum_set_new w d k v E). lia.
Qed.

Section CheckedFacts.

Context {F : Type} {N : Number F}.

(** *** The checked engine does what the engine does, or overflows *)

Lemma to_float_cases n :
  Checked.to_float n = Ok (of_int n) \/ Checked.to_float n = Raise OverflowError.
Proof. unfold Checked.to_float. destruct (converts n); auto. Qed.

Lemma py_div_agrees x n : agrees (Checked.py_div x n) (py_div x n).
Proof.
  unfold Checked.py_div, py_div.
  destruct (to_float_cases n) as [-> | ->]; cbn [bind]; [now left|now right].
Qed.

Lemma agg_step_agrees st (e : entry F) :
  agrees (Checked.agg_step st e) (Ok (agg_step st e)).
Proof.
  destruct st as [[tw tc] nm], e as [[orig [a|]] cnt];
    cbn [Checked.agg_step agg_step]; [|now left].
  destruct (cnt =? 0); [now left|].
  destruct (to_float_cases cnt) as [-> | ->]; cbn [bind]; [now left|now right].
Qed.

Lemma agg_loop_agrees (es : list (entry F)) nm :
  agrees (Checked.agg_loop es nm) (Ok (agg_loop es nm)).
Proof.
  unfold Checked.agg_loop, agg_loop. rewrite <- for_each_fold.
  apply for_each_agrees. apply agg_step_agrees.
Qed.

Lemma aggregate_key_agrees (es : list (entry F)) :
  agrees (Checked.aggregate_key es) (aggregate_key es).
Proof.
  unfold Checked.aggregate_key, aggregate_key.
  destruct (index0 es) as [first|e]; cbn [bind]; [|now left].
  destruct (agg_loop_agrees es (fst (fst first))) as [-> | ->]; cbn [bind];
    [|now right].
  destruct (agg_loop es (fst (fst first))) as [[tw tc] nm].
  destruct (0 <? tc); [|now left].
  apply agrees_bind; [apply py_div_agrees|intros a; now left].
Qed.

Lemma aggregate_step_agrees (m : odict (entry F)) kv :
  agrees (Checked.aggregate_step m kv) (aggregate_step m kv).
Proof.
  destruct kv as [k es]. unfold Checked.aggregate_step, aggregate_step.
  apply agrees_bind; [apply aggregate_key_agrees|intros r; now left].
Qed.

Lemma aggregate_agrees (day : odict (list (entry F))) :
  agrees (Checked.aggregate day) (aggregate day).
Proof. apply for_each_agrees, aggregate_step_agrees. Qed.

Lemma fold_into_agrees (prev : entry F) avg cnt :
  agrees (Checked.fold_into prev avg cnt) (fold_into prev avg cnt).
Proof.
  destruct prev as [[po pa] pc]. unfold Checked.fold_into, fold_into. cbv zeta.
  apply agrees_bind; [|intros a; now left].
  destruct (0 <? pc + cnt); [|now left].
  destruct (to_float_cases pc) as [-> | ->]; cbn [bind]; [|now right].
  destruct (to_float_cases cnt) as [-> | ->]; cbn [bind]; [|now right].
  apply agrees_bind; [apply py_div_agrees|intros q; now left].
Qed.

Lemma merge_step_agrees (fm : odict (entry F)) kv :
  agrees (Checked.merge_step fm kv) (merge_step fm kv).
Proof.
  destruct kv as [key [[nm avg] cnt]]. unfold Checked.merge_step, merge_step.
  cbv zeta. destruct (found_truthy _); [|now left].
  destruct (find_anagram fm (sorted_chars key)) as [fk|]; [|now left].
  apply agrees_bind; [now left|]. intros prev.
  apply agrees_bind; [apply fold_into_agrees|intros r; now left].
Qed.

Lemma merge_anagrams_agrees (m : odict (entry F)) :
  agrees (Checked.merge_anagrams m) (merge_anagrams m).
Proof. apply for_each_agrees, merge_step_agrees. Qed.

Lemma compute_top10_agrees (rows : list (entry F)) peak_rows :
  agrees (Checked.compute_top10 rows peak_rows) (compute_top10 rows peak_rows).
Proof.
  unfold Checked.compute_top10, compute_top10. cbv zeta.
  apply agrees_bind; [apply aggregate_agrees|]. intros merged.
  apply agrees_bind; [apply merge_anagrams_agrees|]. intros fm. now left.
Qed.

(** The engine with the total conversion returns on every table. *)
Lemma compute_top10_total (rows : list (entry F)) peak_rows :
  exists out,
    compute_top10 rows peak_rows = Ok out /\ (List.length out <= 10)%nat.
Proof.
  destruct (stages_run rows) as (merged & fm & Hagg & _ & Hrun & _).
  unfold compute_top10. cbv zeta. rewrite Hagg. cbn [bind]. rewrite Hrun. cbn [bind].
  rewrite threshold_filter_candidates. cbn [bind].
  eexists. split; [reflexivity|]. unfold top10. apply firstn_le_length.
Qed.

(** *** Counts that convert *)

Lemma to_float_converts n :
  converts n = true -> Checked.to_float n = Ok (of_int n).
Proof. unfold Checked.to_float. now intros ->. Qed.

Lemma py_div_converts x n :
  converts n = true -> Checked.py_div x n = py_div x n.
Proof.
  intros H. unfold Checked.py_div, py_div. rewrite to_float_converts by assumption.
  reflexivity.
Qed.

Lemma magnitude_pos (e : entry F) : 1 <= magnitude e.
Proof. unfold magnitude. lia. Qed.

Lemma magnitude_cnt (e : entry F) : Z.abs (entry_cnt e) <= magnitude e.
Proof. unfold magnitude. lia. Qed.

Lemma weight_bound_cons (e : entry F) rows :
  weight_bound (e :: rows) = magnitude e + weight_bound rows.
Proof. reflexivity. Qed.

Lemma weight_bound_nonneg (rows : list (entry F)) : 0 <= weight_bound rows.
Proof.
  induction rows as [|e rows IH]; [cbn; lia|].
  rewrite weight_bound_cons. pose proof (magnitude_pos e). lia.
Qed.

Lemma weight_bound_app (l l' : list (entry F)) :
  weight_bound (l ++ l') = weight_bound l + weight_bound l'.
Proof.
  induction l as [|e l IH]; [reflexivity|].
  cbn [app]. rewrite !weight_bound_cons, IH. lia.
Qed.

Lemma weight_bound_In (e : entry F) rows :
  In e rows -> magnitude e <= weight_bound rows.
Proof.
  induction rows as [|x rows IH]; [intros []|]. rewrite weight_bound_cons.
  pose proof (weight_bound_nonneg rows). pose proof (magnitude_pos x).
  intros [->|G]; [|apply IH in G]; lia.
Qed.

Lemma agg_loop_converts B (es : list (entry F)) tw tc nm :
  (forall n, Z.abs n <= B -> converts n = true) ->
  Z.abs tc + weight_bound es <= B ->
  for_each Checked.agg_step es (tw, tc, nm)
  = Ok (fold_left agg_step es (tw, tc, nm)).
Proof.
  intros HB. revert tw tc nm.
  induction es as [|[[orig avg] cnt] es IH]; intros tw tc nm Hb; [reflexivity|].
  cbn [for_each fold_left]. rewrite weight_bound_cons in Hb.
  pose proof (magnitude_cnt (orig, avg, cnt)) as Hm.
  pose proof (magnitude_pos (orig, avg, cnt)) as Hp.
  cbn [entry_cnt snd] in Hm.
  cbn [Checked.agg_step agg_step]. destruct avg as [a|]; cbn [bind].
  - destruct (Z.eqb_spec cnt 0) as [->|Hne]; cbn [bind].
    + apply IH. lia.
    + pose proof (weight_bound_nonneg es).
      rewrite to_float_converts by (apply HB; lia). cbn [bind].
      apply IH. lia.
  - apply IH. lia.
Qed.

Lemma agg_fold_magnitude (es : list (entry F)) tw tc nm :
  Z.abs (snd (fst (fold_left agg_step es (tw, tc, nm))))
  <= Z.abs tc + weight_bound es.
Proof.
  revert tw tc nm.
  induction es as [|[[orig avg] cnt] es IH]; intros tw tc nm;
    [cbn; lia|].
  cbn [fold_left]. rewrite weight_bound_cons.
  pose proof (magnitude_cnt (orig, avg, cnt)) as Hm.
  pose proof (magnitude_pos (orig, avg, cnt)) as Hp.
  cbn [entry_cnt snd] in Hm. cbn [agg_step].
  destruct avg as [a|].
  - destruct (Z.eqb_spec cnt 0) as [->|Hne].
    + specialize (IH (tw +! a) (tc + 1) nm). lia.
    + specialize (IH (tw +! a *! of_int cnt) (tc + cnt) orig). lia.
  - specialize (IH tw tc nm). lia.
Qed.

Lemma aggregate_key_converts B (es : list (entry F)) :
  (forall n, Z.abs n <= B -> converts n = true) ->
  weight_bound es <= B ->
  Checked.aggregate_key es = aggregate_key es.
Proof.
  intros HB Hb. unfold Checked.aggregate_key, aggregate_key.
  destruct (index0 es) as [first|e]; cbn [bind]; [|reflexivity].
  unfold Checked.agg_loop. rewrite (agg_loop_converts B) by (auto; cbn; lia).
  cbn [bind]. fold (agg_loop es (fst (fst first))).
  pose proof (agg_fold_magnitude es nzero 0 (fst (fst first))) as Hm.
  fold (agg_loop es (fst (fst first))) in Hm.
  destruct (agg_loop es (fst (fst first))) as [[tw tc] nm]. cbn [fst snd] in Hm.
  destruct (0 <? tc); [|reflexivity].
  rewrite py_div_converts; [reflexivity|]. apply HB. cbn in Hm. lia.
Qed.

Lemma aggregate_key_magnitude (es : list (entry F)) rec :
  aggregate_key es = Ok (Some rec) -> Z.abs (entry_cnt rec) <= weight_bound es.
Proof.
  destruct es as [|e es]; [discriminate|].
  rewrite aggregate_key_cons. cbv zeta.
  destruct (0 <? total_count_of (e :: es)).
  - intros H. injection H as <-. cbn [entry_cnt snd].
    unfold total_count_of, running_fold, agg_loop.
    pose proof (agg_fold_magnitude (e :: es) nzero 0 "") as Hm. cbn in Hm |- *.
    lia.
  - rewrite pick_find. intros H.
    assert (G : find has_avg (e :: es) = Some rec) by congruence.
    apply find_some in G as [Hin _].
    pose proof (weight_bound_In rec _ Hin). pose proof (magnitude_cnt rec). lia.
Qed.

Lemma aggregate_from_converts B (day : odict (list (entry F))) acc :
  (forall n, Z.abs n <= B -> converts n = true) ->
  (forall k es, In (k, es) day -> weight_bound es <= B) ->
  for_each Checked.aggregate_step day acc = for_each aggregate_step day acc.
Proof.
  intros HB. revert acc. induction day as [|[k es] day IH]; intros acc Hd;
    [reflexivity|].
  cbn [for_each]. unfold Checked.aggregate_step at 1, aggregate_step at 1.
  rewrite (aggregate_key_converts B) by (auto; apply (Hd k); now left).
  destruct (aggregate_key es) as [[rec|]|e]; cbn [bind]; auto;
    apply IH; intros k' es' H; apply (Hd k'); now right.
Qed.

Lemma aggregate_from_magnitude (day : odict (list (entry F))) acc m :
  for_each aggregate_step day acc = Ok m ->
  records_bound m <= records_bound acc + day_bound day.
Proof.
  revert acc. induction day as [|[k es] day IH]; intros acc; cbn [for_each].
  - intros H. injection H as <-. cbn. lia.
  - unfold aggregate_step at 1.
    destruct (aggregate_key es) as [[rec|]|e] eqn:E; cbn [bind]; [| |discriminate];
      intros H; apply IH in H; unfold day_bound in *; cbn [od_sum fold_right snd];
      fold (od_sum (@weight_bound F) day).
    + pose proof (aggregate_key_magnitude es rec E).
      pose proof (od_sum_set_le (fun r : entry F => Z.abs (entry_cnt r)) acc k rec
                    (fun r => Z.abs_nonneg _)).
      unfold records_bound in *. lia.
    + pose proof (weight_bound_nonneg es). lia.
Qed.

(** The groups of [day] share the rows among them. *)
Lemma day_bound_rows (rows : list (entry F)) :
  day_bound (load_day_averages rows) <= weight_bound rows.
Proof.
  induction rows as [|[[crop avg] cnt] rows IH] using rev_ind; [cbn; lia|].
  unfold load_day_averages in *. rewrite fold_left_app. cbn [fold_left].
  rewrite weight_bound_app. cbn [weight_bound fold_right].
  pose proof (magnitude_pos (crop, avg, cnt)) as Hp.
  set (d := fold_left load_day_step rows []) in *.
  unfold load_day_step. destruct (String.eqb crop ""); [lia|].
  unfold day_bound in *.
  destruct (od_get d (lower crop)) as [l|] eqn:E.
  - rewrite (od_sum_set_get _ _ _ _ l E), weight_bound_app.
    cbn [weight_bound fold_right]. lia.
  - rewrite (od_sum_set_new _ _ _ _ E). cbn [weight_bound fold_right]. lia.
Qed.

Lemma fold_into_converts (prev : entry F) avg cnt :
  converts (entry_cnt prev) = true -> converts cnt = true ->
  converts (entry_cnt prev + cnt) = true ->
  Checked.fold_into prev avg cnt = fold_into prev avg cnt.
Proof.
  destruct prev as [[po pa] pc]. cbn [entry_cnt snd]. intros H1 H2 H3.
  unfold Checked.fold_into, fold_into. cbv zeta.
  destruct (0 <? pc + cnt); [|reflexivity].
  rewrite !to_float_converts by assumption. cbn [bind].
  now rewrite py_div_converts.
Qed.

Lemma merge_step_converts B (fm : odict (entry F)) kv :
  (forall n, Z.abs n <= B -> converts n = true) ->
  records_bound fm + Z.abs (entry_cnt (snd kv)) <= B ->
  Checked.merge_step fm kv = merge_step fm kv.
Proof.
  destruct kv as [key [[nm avg] cnt]]. cbn [entry_cnt snd]. intros HB Hb.
  unfold Checked.merge_step, merge_step. cbv zeta.
  destruct (found_truthy _); [|reflexivity].
  destruct (find_anagram fm (sorted_chars key)) as [fk|]; [|reflexivity].
  unfold od_getitem. destruct (od_get fm fk) as [prev|] eqn:E; cbn [bind];
    [|reflexivity].
  pose proof (od_sum_get (fun r : entry F => Z.abs (entry_cnt r)) fm fk prev
                (fun r => Z.abs_nonneg _) E) as Hp.
  fold (records_bound fm) in Hp. cbn beta in Hp.
  rewrite fold_into_converts; [reflexivity| | |]; apply HB; lia.
Qed.

Lemma merge_step_magnitude (fm : odict (entry F)) kv fm' :
  merge_step fm kv = Ok fm' ->
  records_bound fm' <= records_bound fm + Z.abs (entry_cnt (snd kv)).
Proof.
  destruct kv as [key [[nm avg] cnt]]. cbn [entry_cnt snd]. intros Hstep.
  unfold records_bound.
  destruct (merge_step_cases fm key nm avg cnt)
    as [(_ & E)|[(fk & prev & a & _ & _ & Hget & _ & E)|(_ & _ & E)]];
    pose proof (eq_trans (eq_sym E) Hstep) as E'; injection E' as <-.
  - apply (od_sum_set_le (fun r : entry F => Z.abs (entry_cnt r)) fm key
             (nm, avg, cnt) (fun r => Z.abs_nonneg _)).
  - rewrite (od_sum_set_get _ _ _ _ prev Hget). cbn [entry_cnt snd]. lia.
  - apply (od_sum_set_le (fun r : entry F => Z.abs (entry_cnt r)) fm key
             (nm, avg, cnt) (fun r => Z.abs_nonneg _)).
Qed.


Lemma merge_from_converts B (l : odict (entry F)) fm :
  (forall n, Z.abs n <= B -> converts n = true) ->
  records_bound fm + records_bound l <= B ->
  for_each Checked.merge_step l fm = for_each merge_step l fm.
Proof.
  intros HB. revert fm. induction l as [|kv l IH]; intros fm Hb; [reflexivity|].
  cbn [for_each]. unfold records_bound in Hb. rewrite od_sum_cons in Hb.
  fold (records_bound l) in Hb. fold (records_bound fm) in Hb.
  pose proof (od_sum_nonneg (fun r : entry F => Z.abs (entry_cnt r)) l
                (fun r => Z.abs_nonneg _)) as Hl.
  fold (records_bound l) in Hl.
  rewrite (merge_step_converts B) by (auto; lia).
  destruct (merge_step fm kv) as [fm1|e] eqn:E; cbn [bind]; [|reflexivity].
  apply IH. apply merge_step_magnitude in E. lia.
Qed.

(** With counts that are not negative the loop converts nothing above its
    total. *)
Lemma agg_loop_converts_nonneg (es : list (entry F)) tw tc nm :
  counts_nonneg es -> 0 <= tc ->
  (forall n, 0 <= n <= snd (fst (fold_left agg_step es (tw, tc, nm))) ->
             converts n = true) ->
  for_each Checked.agg_step es (tw, tc, nm)
  = Ok (fold_left agg_step es (tw, tc, nm)).
Proof.
  revert tw tc nm.
  induction es as [|[[orig avg] cnt] es IH]; intros tw tc nm Hnn Htc Hc;
    [reflexivity|].
  assert (Hcnt : 0 <= cnt) by (apply (Hnn (orig, avg, cnt)); now left).
  assert (Hes : counts_nonneg es) by (intros e He; apply Hnn; now right).
  cbn [for_each fold_left] in *. cbn [Checked.agg_step agg_step] in *.
  destruct avg as [a|]; cbn [bind].
  - destruct (Z.eqb_spec cnt 0) as [->|Hne]; cbn [bind].
    + apply IH; auto; lia.
    + destruct (agg_fold_count_mono es (tw +! a *! of_int cnt) (tc + cnt) orig Hes)
        as [Hmono _].
      rewrite to_float_converts by (apply Hc; lia). cbn [bind].
      apply IH; auto; lia.
  - apply IH; auto.
Qed.

Lemma aggregate_key_converts_nonneg (es : list (entry F)) :
  counts_nonneg es ->
  (forall n, 0 <= n <= total_count_of es -> converts n = true) ->
  Checked.aggregate_key es = aggregate_key es.
Proof.
  intros Hnn Hc. unfold Checked.aggregate_key, aggregate_key.
  destruct (index0 es) as [first|e]; cbn [bind]; [|reflexivity].
  pose proof (total_count_of_name es (fst (fst first))) as Ht.
  unfold Checked.agg_loop.
  rewrite agg_loop_converts_nonneg; [|exact Hnn|lia|].
  - cbn [bind]. fold (agg_loop es (fst (fst first))).
    destruct (agg_loop es (fst (fst first))) as [[tw tc] nm]. cbn [fst snd] in Ht.
    destruct (Z.ltb_spec 0 tc); [|reflexivity].
    rewrite py_div_converts; [reflexivity|]. apply Hc. lia.
  - fold (agg_loop es (fst (fst first))). now rewrite Ht.
Qed.

(** On rows in range the two engines run the same, stage by stage. *)
Lemma checked_stages (rows : list (entry F)) :
  in_range rows ->
  Checked.aggregate (load_day_averages rows) = aggregate (load_day_averages rows) /\
  forall merged, aggregate (load_day_averages rows) = Ok merged ->
    records_bound merged <= weight_bound rows /\
    forall p rest, merged = p ++ rest ->
      Checked.merge_anagrams p = merge_anagrams p.
Proof.
  intros HB. pose proof (day_bound_rows rows) as Hday. split.
  - apply (aggregate_from_converts (weight_bound rows)); [exact HB|].
    intros k es Hin.
    pose proof (od_sum_In (@weight_bound F) _ k es weight_bound_nonneg Hin).
    unfold day_bound in Hday. lia.
  - intros merged Hagg. apply aggregate_from_magnitude in Hagg. cbn in Hagg.
    split; [lia|]. intros p rest ->.
    apply (merge_from_converts (weight_bound rows)); [exact HB|].
    unfold records_bound in *. rewrite od_sum_app in Hagg.
    pose proof (od_sum_nonneg (fun r : entry F => Z.abs (entry_cnt r)) rest
                  (fun r => Z.abs_nonneg _)).
    cbn. lia.
Qed.

Lemma compute_top10_converts (rows : list (entry F)) peak_rows :
  in_range rows ->
  Checked.compute_top10 rows peak_rows = compute_top10 rows peak_rows.
Proof.
  intros HB. destruct (checked_stages rows HB) as [Hagg Hmerge].
  unfold Checked.compute_top10, compute_top10. cbv zeta. rewrite Hagg.
  destruct (aggregate (load_day_averages rows)) as [merged|e] eqn:E; cbn [bind];
    [|reflexivity].
  destruct (Hmerge merged eq_refl) as [_ Hp].
  now rewrite (Hp merged [] (eq_sym (app_nil_r merged))).
Qed.

End CheckedFacts.

(** ** The display name of a merged record *)

(** C1, as stated, fails: the rows Jowar (average 50, count 4) and jawor
    (average 70, count 6) give the keys [jowar] and [jawor]; [jawor] is
    absorbed into the group of [jowar], its own display name is [jawor], and
    the merged record keeps the display name [Jowar]. *)
Lemma absorbed_name_counterexample :
  exists merged fm q,
    aggregate (load_day_averages [("Jowar", Some 50%Q, 4); ("jawor", Some 70%Q, 6)])
    = Ok merged /\
    od_keys merged = ["jowar"; "jawor"] /\
    option_map entry_name (od_get merged "jawor") = Some "jawor" /\
    merge_anagrams merged = Ok fm /\
    fm = [("jowar", ("Jowar", Some q, 10))] /\
    (q == 62)%Q.
Proof.
  do 3 eexists. repeat split; try (vm_compute; reflexivity).
Qed.

(** C1, amended: on every run, each record of [final_merged] is stored under
    the first key (in iteration order of [merged]) that has its sorted
    letters, and its display name is the one the aggregation stage stored
    for that key; absorbing later keys never changes it. *)
Theorem merged_name_is_representative {F : Type} {N : Number F}
  (rows : list (entry F)) :
  exists merged fm,
    aggregate (load_day_averages rows) = Ok merged /\
    merge_anagrams merged = Ok fm /\
    forall r rec, In (r, rec) fm ->
      find (fun k => String.eqb (signature k) (signature r)) (od_keys merged)
      = Some r /\
      exists avg0 cnt0, od_get merged r = Some (entry_name rec, avg0, cnt0).
Proof.
  destruct (stages_run rows) as (merged & fm & Hagg & [Hnd _] & Hrun & Hinto).
  exists merged, fm. repeat split; auto.
  - apply representatives_first. destruct Hinto as [<- _].
    apply (in_map fst) in H. exact H.
  - pose proof (merged_into_NoDup _ _ Hinto) as Hfm.
    apply (In_od_get _ _ _ Hfm) in H.
    destruct Hinto as [_ Hrec]. destruct (Hrec r rec H) as ((a0 & c0 & Hin) & _).
    exists a0, c0. now apply In_od_get.
Qed.

(** ** The weighted mean of one key *)

(** C2 as stated fails on a count too large for a float: a count of
    10^400 meets the conditions of the claim, and line 78 raises
    [OverflowError] instead of giving a result. *)
Lemma aggregator_overflow_counterexample :
  let entries : list (entry float) := [("wheat", Some 1%float, 10 ^ 400)] in
  counts_nonneg entries /\
  0 < snd (running_totals (N := binary64) entries) /\
  Checked.aggregate_key (N := binary64) entries = Raise OverflowError.
Proof.
  cbv zeta. split; [|split].
  - intros e [<-|[]]. vm_compute. discriminate.
  - vm_compute. reflexivity.
  - vm_compute. reflexivity.
Qed.

(** C2, amended: for entries whose counts are not negative and whose total
    weight converts to a float (with every count below it), the
    aggregator's weighted sum and weight total are the running totals of
    the contributions (an average with a positive count adds average *
    count and count, an average with a zero count adds the average and 1,
    an absent average adds nothing), and when the weight total is positive
    the record stored is (weighted sum / weight total, weight total).  The
    entries (100, 10) and (120, 5) give the average (100*10 + 120*5) / 15
    and the weight 15. *)
Theorem aggregator_weighted_mean :
  (forall (F : Type) (N : Number F) (entries : list (entry F)),
     counts_nonneg entries ->
     0 < snd (running_totals entries) ->
     (forall n, 0 <= n <= snd (running_totals entries) -> converts n = true) ->
     exists name,
       Checked.aggregate_key entries
       = Ok (Some (name,
                   Some (fst (running_totals entries)
                         /! of_int (snd (running_totals entries))),
                   snd (running_totals entries)))) /\
  (exists name avg,
     Checked.aggregate_key [("wheat", Some 100%Q, 10); ("Wheat", Some 120%Q, 5)]
     = Ok (Some (name, Some avg, 15)) /\
     (avg == (100 * 10 + 120 * 5) / 15)%Q).
Proof.
  split.
  - intros F N entries Hnn Hpos Hc.
    assert (Hne : entries <> []) by (intros ->; cbn in Hpos; lia).
    pose proof (running_fold_totals entries Hnn) as Hrun.
    rewrite aggregate_key_converts_nonneg;
      [|exact Hnn|unfold total_count_of; now rewrite Hrun].
    destruct (aggregate_key_cases entries Hne) as [(_ & name & E)|(Hle & _)].
    + exists name. rewrite E. unfold total_count_of. now rewrite Hrun.
    + unfold total_count_of in Hle. rewrite Hrun in Hle. lia.
  - do 2 eexists. split; [reflexivity|]. reflexivity.
Qed.

Lemma aggregator_weighted_mean_witness :
  let entries : list (entry float) :=
    [("wheat", Some 100%float, 10); ("Wheat", Some 42%float, 0);
     ("WHEAT", None, 7)] in
  counts_nonneg entries /\
  snd (running_totals (N := binary64) entries) = 11 /\
  (forall n, 0 <= n <= 11 -> converts64 n = true) /\
  exists name,
    Checked.aggregate_key (N := binary64) entries
    = Ok (Some (name,
                Some ((0 + 100 * float_of_Z 10 + 42) / float_of_Z 11)%float,
                11)).
Proof.
  cbv zeta.
  assert (H : counts_nonneg
                ([("wheat", Some 100%float, 10); ("Wheat", Some 42%float, 0);
                  ("WHEAT", None, 7)] : list (entry float))).
  { intros e [<-|[<-|[<-|[]]]]; vm_compute; discriminate. }
  assert (Hc : forall n, 0 <= n <= 11 -> converts64 n = true).
  { intros n Hn. unfold converts64. apply Z.ltb_lt.
    assert (11 < 2 ^ 1024 - 2 ^ 970) by (vm_compute; reflexivity). lia. }
  split; [exact H|]. split; [reflexivity|]. split; [exact Hc|].
  apply (proj1 aggregator_weighted_mean float binary64 _ H); [reflexivity|exact Hc].
Defined.

(** ** The threshold filter *)

(** C3, as stated, fails: with the rows Jowar (50, 4) and jawor (70, 6)
    and a threshold of 10 for [jawor] only, the merged record (average 62) has a
    threshold under a key that was absorbed into it and lies above it, and
    it is skipped: the lookup uses the key [jowar] the record is stored
    under. *)
Lemma absorbed_threshold_counterexample :
  let rows := [("Jowar", Some 50%Q, 4); ("jawor", Some 70%Q, 6)] in
  let peak_rows := [("jawor", Some 10%Q)] in
  exists merged fm q,
    aggregate (load_day_averages rows) = Ok merged /\
    merge_anagrams merged = Ok fm /\
    fm = [("jowar", ("Jowar", Some q, 10))] /\
    od_get (load_peak_values peak_rows) "jawor" = Some 10%Q /\
    nge q 10%Q = true /\
    threshold_filter (load_peak_values peak_rows) fm = Ok [] /\
    compute_top10 rows peak_rows = Ok [].
Proof.
  do 3 eexists. repeat split; try (vm_compute; reflexivity).
Qed.

(** C3, amended: a record of [final_merged] that has an average is skipped
    only when there is no threshold for the key it is stored under (the first
    key of its group; the thresholds of keys absorbed into it are not looked
    up), and it is listed, before the sort and the cut to ten, exactly when
    that key has a threshold and the average is greater than or equal to
    it. *)
Theorem threshold_by_stored_key {F : Type} {N : Number F}
  (peak : odict F) (fm : odict (entry F)) :
  exists matched,
    threshold_filter peak fm = Ok matched /\
    forall name a thr,
      In (name, a, thr) matched <->
      exists k cnt,
        In (k, (name, Some a, cnt)) fm /\
        od_get peak k = Some thr /\ nge a thr = true.
Proof.
  exists (flat_map (candidate peak) fm). split.
  - apply threshold_filter_candidates.
  - intros name a thr. rewrite in_flat_map. split.
    + intros ([k rec] & Hin & Hc). apply candidate_In in Hc as (cnt & Hrec & Hp & Hg).
      cbn [fst snd] in *. subst rec. eauto.
    + intros (k & cnt & Hin & Hp & Hg). exists (k, (name, Some a, cnt)).
      split; auto. apply candidate_In. exists cnt. auto.
Qed.

(** ** The fallback of the aggregator *)




(** ** The ranking *)

(** C5: the list the ranker returns is sorted by observed average,
    descending; it has at most ten elements, all of them matches (ten, or
    all of them when there are fewer); and the results that share an average
    appear in the order they have among the matches: they are a prefix of
    the matches with that average.  This holds in exact arithmetic for every
    list of matches, and on doubles for every list without a NaN average,
    which the matches the threshold loop builds always are.  Eleven matches
    show the order, the ties and the cut in both arithmetics. *)
Theorem top10_sorted_stable_bounded :
  (forall matched : list (ranked Q),
     StronglySorted desc (top10 matched) /\
     List.length (top10 matched) = Nat.min 10 (List.length matched) /\
     (List.length (top10 matched) <= 10)%nat /\
     incl (top10 matched) matched /\
     forall q, exists m,
       filter (same_key q) (top10 matched)
       = firstn m (filter (same_key q) matched)) /\
  (forall matched : list (ranked float),
     Forall (fun x => not_nan (result_avg x)) matched ->
     StronglySorted desc64 (top10 (N := binary64) matched) /\
     List.length (top10 (N := binary64) matched)
     = Nat.min 10 (List.length matched) /\
     (List.length (top10 (N := binary64) matched) <= 10)%nat /\
     incl (top10 (N := binary64) matched) matched /\
     forall q, exists m,
       filter (same_key64 q) (top10 (N := binary64) matched)
       = firstn m (filter (same_key64 q) matched)) /\
  (forall (peak : odict float) (fm : odict (entry float)),
     exists matched,
       threshold_filter (N := binary64) peak fm = Ok matched /\
       Forall (fun x => not_nan (result_avg x)) matched) /\
  top10 [("a", 1, 9); ("b", 3, 8); ("c", 3, 7); ("d", 2, 6); ("e", 5, 5);
         ("f", 4, 4); ("g", 6, 3); ("h", 7, 2); ("i", 8, 1); ("j", 9, 0);
         ("k", 10, 0)]%Q
  = [("k", 10, 0); ("j", 9, 0); ("i", 8, 1); ("h", 7, 2); ("g", 6, 3);
     ("e", 5, 5); ("f", 4, 4); ("b", 3, 8); ("c", 3, 7); ("d", 2, 6)]%Q /\
  top10 (N := binary64)
    [("a", 1, 9); ("b", 3, 8); ("c", 3, 7); ("d", 2, 6); ("e", 5, 5);
     ("f", 4, 4); ("g", 6, 3); ("h", 7, 2); ("i", 8, 1); ("j", 9, 0);
     ("k", 10, 0)]%float
  = [("k", 10, 0); ("j", 9, 0); ("i", 8, 1); ("h", 7, 2); ("g", 6, 3);
     ("e", 5, 5); ("f", 4, 4); ("b", 3, 8); ("c", 3, 7); ("d", 2, 6)]%float.
Proof.
  split; [|split; [|split; [|split]]].
  - intros matched.
    apply (top10_ranked _ _ _ exact_sort_laws matched).
    apply Forall_forall. trivial.
  - intros matched Hok.
    apply (top10_ranked _ _ _ binary64_sort_laws matched Hok).
  - intros peak fm. eexists. split; [apply threshold_filter_candidates|].
    apply (candidates_ok _ _ _ binary64_sort_laws).
  - vm_compute. reflexivity.
  - vm_compute. reflexivity.
Qed.

(** ** Folding a record into its group *)

Section Folds.

Context {F : Type} {N : Number F}.

(** With counts that are not negative every record of [merged] has an
    average and weighs at least one. *)
Lemma merged_weighty (rows : list (entry F)) merged :
  counts_nonneg rows ->
  merged_from (load_day_averages rows) merged ->
  forall k rec, In (k, rec) merged -> weighty rec.
Proof.
  intros Hnn [_ Hrec] k [[name avg] cnt] Hin.
  destruct (Hrec _ _ Hin) as (entries & Hday & Hkey). split; cbn.
  - apply (aggregate_key_avg entries name avg cnt Hkey).
  - apply (aggregate_key_weight entries name avg cnt); [|exact Hkey].
    intros e He. apply Hnn. eapply load_day_averages_rows; eauto.
Qed.


End Folds.



(** ** Membership of the merged groups *)

Section Membership.

Context {F : Type} {N : Number F}.




End Membership.



(** ** The weighted mean between the least and the greatest average *)

(** C8, as stated, fails on doubles: one entry with the average 0.1 (the
    double 0x1.999999999999ap-4) and the count 3 has total weight 3, and the
    average computed, (0.0 + 0.1 * 3) / 3, is the next double above 0.1,
    outside the interval [0.1, 0.1] of the entry averages. *)
Lemma weighted_mean_rounding_counterexample :
  let a := 0x1.999999999999ap-4%float in
  let above := 0x1.999999999999bp-4%float in
  total_count_of (N := binary64) [("a", Some a, 3)] = 3 /\
  aggregate_key (N := binary64) [("a", Some a, 3)]
  = Ok (Some ("a", Some above, 3)) /\
  PrimFloat.ltb a above = true.
Proof. repeat split; vm_compute; reflexivity. Qed.

(** C8, amended: in exact arithmetic, for entries whose counts are not
    negative and whose total weight is positive, the average the aggregator
    stores lies between the least and the greatest of the entry averages
    that are present.  (On doubles each operation rounds, and the stored
    average can leave the interval by the rounding error.) *)
Theorem weighted_mean_bounded_exact (entries : list (entry Q)) :
  counts_nonneg entries ->
  0 < total_count_of entries ->
  exists name avg lo hi,
    aggregate_key entries = Ok (Some (name, Some avg, total_count_of entries)) /\
    min_avg entries = Some lo /\
    max_avg entries = Some hi /\
    (lo <= avg <= hi)%Q.
Proof.
  intros Hnn Hpos.
  assert (Hne : entries <> []) by (intros ->; cbn in Hpos; lia).
  destruct (aggregate_key_cases entries Hne) as [(_ & name & E)|(Hle & _)]; [|lia].
  destruct (find has_avg entries) as [e0|] eqn:G.
  2:{ exfalso. rewrite find_has_avg_none in G.
      unfold total_count_of, running_fold, agg_loop in Hpos.
      rewrite agg_fold_absent in Hpos by assumption. cbn in Hpos. lia. }
  apply find_some in G as [Hin0 Ha0]. unfold has_avg in Ha0.
  destruct (entry_avg e0) as [a0|] eqn:Ea0; [|discriminate].
  destruct (min_avg_le entries e0 a0 Hin0 Ea0) as (lo & Hlo & _).
  destruct (max_avg_ge entries e0 a0 Hin0 Ea0) as (hi & Hhi & _).
  assert (Hb : forall e a, In e entries -> entry_avg e = Some a -> (lo <= a <= hi)%Q).
  { intros e a He Ha.
    destruct (min_avg_le entries e a He Ha) as (lo' & Hlo' & Hle).
    destruct (max_avg_ge entries e a He Ha) as (hi' & Hhi' & Hge).
    split; congruence. }
  destruct (agg_fold_bounds entries lo hi 0%Q 0 "" Hnn Hb) as [_ [H1 H2]];
    [lia|change (inject_Z 0) with 0%Q; lra|].
  fold (agg_loop entries "") in H1, H2. fold (running_fold entries) in H1, H2.
  fold (total_count_of entries) in H1, H2.
  assert (Hq : (0 < inject_Z (total_count_of entries))%Q).
  { change 0%Q with (inject_Z 0). now rewrite <- Zlt_Qlt. }
  exists name, (fst (running_fold entries) / inject_Z (total_count_of entries))%Q, lo, hi.
  split; [exact E|]. split; [exact Hlo|]. split; [exact Hhi|]. split.
  - now apply Qle_shift_div_l.
  - now apply Qle_shift_div_r.
Qed.

Lemma weighted_mean_bounded_exact_witness :
  let entries : list (entry Q) :=
    [("wheat", Some 100%Q, 10); ("Wheat", Some 120%Q, 5); ("WHEAT", Some 90%Q, 0)] in
  counts_nonneg entries /\
  total_count_of entries = 16 /\
  min_avg entries = Some 90%Q /\
  max_avg entries = Some 120%Q /\
  exists name avg lo hi,
    aggregate_key entries = Ok (Some (name, Some avg, total_count_of entries)) /\
    min_avg entries = Some lo /\
    max_avg entries = Some hi /\
    (lo <= avg <= hi)%Q.
Proof.
  assert (H : counts_nonneg
                ([("wheat", Some 100%Q, 10); ("Wheat", Some 120%Q, 5);
                  ("WHEAT", Some 90%Q, 0)] : list (entry Q))).
  { intros e [<-|[<-|[<-|[]]]]; vm_compute; discriminate. }
  split; [exact H|]. split; [reflexivity|]. split; [reflexivity|].
  split; [reflexivity|].
  apply (weighted_mean_bounded_exact _ H). reflexivity.
Defined.

(** ** No fatal condition *)

(** C9 as stated fails: a count too large for a float is fatal.  With a
    count of 10^400 in the table of observations, line 78 raises
    [OverflowError] and the engine returns no list. *)
Lemma overflow_is_fatal_counterexample :
  Checked.compute_top10 (N := binary64)
    [("wheat", Some 1%float, 10 ^ 400)] [("wheat", Some 0%float)]
  = Raise OverflowError.
Proof. vm_compute. reflexivity. Qed.

(** C9, amended: on every pair of tables whose counts convert to a float
    (in magnitude, the counts, each taken as at least one, sum to a number
    that converts) the engine returns a list of at most ten results; on
    every pair of tables the only exception it can raise is [OverflowError]:
    no [IndexError] from [entries[0]], no [ZeroDivisionError] from the two
    divisions, no [KeyError] from the two lookups; and an empty table of
    observations gives the empty list. *)
Theorem compute_top10_returns {F : Type} {N : Number F}
  (rows : list (entry F)) (peak_rows : list (string * option F)) :
  (in_range rows ->
   exists out,
     Checked.compute_top10 rows peak_rows = Ok out /\
     (List.length out <= 10)%nat) /\
  (forall e, Checked.compute_top10 rows peak_rows = Raise e ->
             e = OverflowError) /\
  Checked.compute_top10 [] peak_rows = Ok [].
Proof.
  destruct (compute_top10_total rows peak_rows) as (out & Hout & Hlen).
  split; [|split; [|reflexivity]].
  - intros HB. exists out. split; [|exact Hlen].
    now rewrite compute_top10_converts.
  - intros e He.
    apply (agrees_Raise (Checked.compute_top10 rows peak_rows) out e); [|exact He].
    rewrite <- Hout. apply compute_top10_agrees.
Qed.

Lemma compute_top10_returns_witness :
  let rows : list (entry float) :=
    [("wheat", Some 100%float, 10); ("Wheat", Some 120%float, 5);
     ("rice", Some 150%float, 3)] in
  let peak_rows := [("wheat", Some 90%float); ("rice", Some 200%float)] in
  in_range (N := binary64) rows /\
  exists out,
    Checked.compute_top10 (N := binary64) rows peak_rows = Ok out /\
    (List.length out <= 10)%nat.
Proof.
  cbv zeta.
  assert (HB : in_range (N := binary64)
                 [("wheat", Some 100%float, 10); ("Wheat", Some 120%float, 5);
                  ("rice", Some 150%float, 3)]).
  { intros n Hn. change (Z.abs n <= 18) in Hn.
    change (converts64 n = true). unfold converts64. apply Z.ltb_lt.
    assert (18 < 2 ^ 1024 - 2 ^ 970) by (vm_compute; reflexivity). lia. }
  split; [exact HB|].
  exact (proj1 (compute_top10_returns (N := binary64) _ _) HB).
Defined.

(** What the engine returns is the ranking of the records that pass the
    threshold filter. *)
Lemma compute_top10_ranked {F : Type} {N : Number F}
  (rows : list (entry F)) (peak_rows : list (string * option F)) :
  exists merged fm matched,
    aggregate (load_day_averages rows) = Ok merged /\
    merge_anagrams merged = Ok fm /\
    threshold_filter (load_peak_values peak_rows) fm = Ok matched /\
    compute_top10 rows peak_rows = Ok (top10 matched).
Proof.
  destruct (stages_run rows) as (merged & fm & Hagg & _ & Hrun & _).
  exists merged, fm, (flat_map (candidate (load_peak_values peak_rows)) fm).
  split; [exact Hagg|]. split; [exact Hrun|].
  split; [apply threshold_filter_candidates|].
  unfold compute_top10. cbv zeta. rewrite Hagg. cbn [bind]. rewrite Hrun. cbn [bind].
  now rewrite threshold_filter_candidates.
Qed.

(** ** Records have an average and a weight *)

(** C10 as stated fails on a negative count, which [int()] parses: the
    rows [x,42,0] and [X,1,-1] have the total weight 0, and the record
    stored for [x] is the first entry with its own count, 0. *)
Lemma negative_count_weight_counterexample :
  let rows : list (entry Q) := [("x", Some 42%Q, 0); ("X", Some 1%Q, -1)] in
  Checked.aggregate (load_day_averages rows) = Ok [("x", ("x", Some 42%Q, 0))] /\
  Checked.merge_anagrams [("x", ("x", Some 42%Q, 0))]
  = Ok [("x", ("x", Some 42%Q, 0))].
Proof. split; reflexivity. Qed.

Section Averages.

Context {F : Type} {N : Number F}.

Lemma py_or_present (x y : option F) :
  x <> None -> y <> None -> py_or x y <> None.
Proof.
  destruct x as [a|]; [|congruence]. intros _ Hy. cbn.
  destruct (truthy a); [discriminate|exact Hy].
Qed.

Lemma merge_step_has_avg (fm : odict (entry F)) kv fm' :
  (forall r rec, In (r, rec) fm -> entry_avg rec <> None) ->
  entry_avg (snd kv) <> None ->
  merge_step fm kv = Ok fm' ->
  forall r rec, In (r, rec) fm' -> entry_avg rec <> None.
Proof.
  destruct kv as [key [[name avg] cnt]]. cbn [snd]. intros Hfm Hkv Hstep r rec Hin.
  destruct (merge_step_cases fm key name avg cnt)
    as [(_ & E)|[(fk & prev & a & _ & _ & Hget & Hfold & E)|(_ & _ & E)]];
    pose proof (eq_trans (eq_sym E) Hstep) as E'; injection E' as <-;
    apply od_set_In in Hin as [Hin|Hin]; eauto; injection Hin as _ ->; auto.
  assert (Hprev : entry_avg prev <> None) by (apply (Hfm fk), od_get_In, Hget).
  destruct (fold_into_spec prev avg cnt) as (a' & Hf & Hpos & Hzero).
  assert (a = a') by congruence. subst a'. cbn [entry_avg fst snd] in *.
  destruct (Z.ltb_spec 0 (entry_cnt prev + cnt)) as [Hp|Hz].
  - rewrite Hpos by assumption. discriminate.
  - rewrite Hzero by assumption. now apply py_or_present.
Qed.

(** Merging records that have an average leaves records that have one,
    whatever their weights. *)
Lemma merge_anagrams_has_avg (merged fm : odict (entry F)) :
  (forall k rec, In (k, rec) merged -> entry_avg rec <> None) ->
  merge_anagrams merged = Ok fm ->
  forall r rec, In (r, rec) fm -> entry_avg rec <> None.
Proof.
  intros Hm Hrun.
  destruct (for_each_invariant merge_step
              (fun fm => forall r rec, In (r, rec) fm -> entry_avg rec <> None)
              merged)
    with (s := @nil (string * entry F)) as (fm' & Hrun' & Hfm').
  - intros s [k rec] Hin Hs. destruct (merge_step_total s (k, rec)) as [s' Hs'].
    exists s'. split; auto. eapply merge_step_has_avg; eauto. cbn. eauto.
  - intros ? ? [].
  - pose proof (eq_trans (eq_sym Hrun') Hrun) as E. injection E as <-.
    exact Hfm'.
Qed.

End Averages.

(** C10, amended: on every input on which the two stages return, every
    record of [merged] and every record of [final_merged] has an average,
    and a key all of whose entries lack an average is not in [merged]; so
    the test [avg is None] of the threshold loop never skips a record.  When
    no row has a negative count every record also weighs at least one.  The
    stages return on every input whose counts convert to a float. *)
Theorem records_have_average_and_weight {F : Type} {N : Number F}
  (rows : list (entry F)) :
  (in_range rows ->
   exists merged fm,
     Checked.aggregate (load_day_averages rows) = Ok merged /\
     Checked.merge_anagrams merged = Ok fm) /\
  forall merged fm,
    Checked.aggregate (load_day_averages rows) = Ok merged ->
    Checked.merge_anagrams merged = Ok fm ->
    (forall k rec, In (k, rec) merged -> exists a, entry_avg rec = Some a) /\
    (forall k rec, In (k, rec) fm -> exists a, entry_avg rec = Some a) /\
    (forall k entries, In (k, entries) (load_day_averages rows) ->
       (forall e, In e entries -> entry_avg e = None) ->
       od_get merged k = None) /\
    (counts_nonneg rows ->
     (forall k rec, In (k, rec) merged -> 1 <= entry_cnt rec) /\
     (forall k rec, In (k, rec) fm -> 1 <= entry_cnt rec)).
Proof.
  destruct (stages_run rows) as (merged0 & fm0 & Hagg & Hfrom & Hrun & _).
  split.
  - intros HB. destruct (checked_stages rows HB) as [Hcagg Hcm].
    destruct (Hcm merged0 Hagg) as [_ Hp].
    exists merged0, fm0. split; [now rewrite Hcagg|].
    now rewrite (Hp merged0 [] (eq_sym (app_nil_r merged0))).
  - intros merged fm Hcagg Hcrun.
    apply (agrees_Ok _ _ _ (aggregate_agrees _)) in Hcagg.
    apply (agrees_Ok _ _ _ (merge_anagrams_agrees _)) in Hcrun.
    assert (merged0 = merged) by congruence. subst merged0.
    assert (Ha : forall k rec, In (k, rec) merged -> entry_avg rec <> None).
    { intros k [[name avg] cnt] Hin. destruct Hfrom as [_ Hrec].
      destruct (Hrec _ _ Hin) as (entries & _ & Hkey).
      apply (aggregate_key_avg entries name avg cnt Hkey). }
    assert (Hp : forall rec : entry F,
               entry_avg rec <> None -> exists a, entry_avg rec = Some a).
    { intros rec H. destruct (entry_avg rec); [eauto|congruence]. }
    split; [|split; [|split]].
    + intros k rec Hin. apply Hp, (Ha k), Hin.
    + intros k rec Hin. apply Hp.
      apply (merge_anagrams_has_avg merged fm Ha Hcrun k rec Hin).
    + intros k entries Hin Habs.
      eapply merged_from_absent; eauto. apply load_day_averages_ok.
    + intros Hnn. pose proof (merged_weighty rows merged Hnn Hfrom) as Hw. split.
      * intros k rec Hin. now destruct (Hw k rec Hin).
      * intros k rec Hin.
        now destruct (merge_anagrams_weighty merged fm Hw Hcrun k rec Hin).
Qed.

Lemma records_have_average_and_weight_witness :
  let rows : list (entry float) :=
    [("Jowar", Some 50%float, 4); ("rice", None, 0); ("jawor", Some 70%float, 0)] in
  in_range (N := binary64) rows /\
  counts_nonneg rows /\
  exists merged fm,
    Checked.aggregate (N := binary64) (load_day_averages rows) = Ok merged /\
    Checked.merge_anagrams (N := binary64) merged = Ok fm /\
    (forall k rec, In (k, rec) fm -> exists a, entry_avg rec = Some a) /\
    (forall k rec, In (k, rec) fm -> 1 <= entry_cnt rec).
Proof.
  cbv zeta.
  assert (HB : in_range (N := binary64)
                 [("Jowar", Some 50%float, 4); ("rice", None, 0);
                  ("jawor", Some 70%float, 0)]).
  { intros n Hn. change (Z.abs n <= 6) in Hn.
    change (converts64 n = true). unfold converts64. apply Z.ltb_lt.
    assert (6 < 2 ^ 1024 - 2 ^ 970) by (vm_compute; reflexivity). lia. }
  assert (H : counts_nonneg
                ([("Jowar", Some 50%float, 4); ("rice", None, 0);
                  ("jawor", Some 70%float, 0)] : list (entry float))).
  { intros e [<-|[<-|[<-|[]]]]; vm_compute; discriminate. }
  split; [exact HB|]. split; [exact H|].
  destruct (records_have_average_and_weight (N := binary64)
              [("Jowar", Some 50%float, 4); ("rice", None, 0);
               ("jawor", Some 70%float, 0)]) as [Hret Hprop].
  destruct (Hret HB) as (merged & fm & Hagg & Hrun).
  destruct (Hprop merged fm Hagg Hrun) as (_ & Hfm & _ & Hw).
  exists merged, fm. split; [exact Hagg|]. split; [exact Hrun|].
  split; [exact Hfm|]. exact (proj2 (Hw H)).
Defined.

(** ** The scenarios of the specification *)

(** The bound of [converts64]: the nearest double is finite up to
    2^1024 - 2^970 - 1 and infinite from 2^1024 - 2^970 on. *)
Example float_of_Z_range :
  PrimFloat.is_infinity (float_of_Z (2 ^ 1024 - 2 ^ 970 - 1)) = false /\
  converts64 (2 ^ 1024 - 2 ^ 970 - 1) = true /\
  PrimFloat.is_infinity (float_of_Z (2 ^ 1024 - 2 ^ 970)) = true /\
  converts64 (2 ^ 1024 - 2 ^ 970) = false /\
  converts64 (- (2 ^ 1024 - 2 ^ 970)) = false.
Proof. repeat split; vm_compute; reflexivity. Qed.

(** Scenario A on doubles. *)
Example scenario_A_binary64 :
  aggregate_key (N := binary64)
    [("wheat", Some 100%float, 10); ("Wheat", Some 120%float, 5)]
  = Ok (Some ("Wheat", Some (1600 / 15)%float, 15)).
Proof. vm_compute. reflexivity. Qed.

(** Scenario C: wheat reaches its threshold, rice does not. *)
Example scenario_C :
  compute_top10
    [("wheat", Some 100%Q, 10); ("Wheat", Some 120%Q, 5); ("rice", Some 150%Q, 3)]
    [("wheat", Some 90%Q); ("rice", Some 200%Q)]
  = Ok [("Wheat", (1600 # 15)%Q, 90%Q)].
Proof. reflexivity. Qed.

(** Scenario D: one entry with an average and no count is one sample. *)
Example scenario_D :
  aggregate_key [("x", Some 42%Q, 0)] = Ok (Some ("x", Some (42 # 1)%Q, 1)).
Proof. reflexivity. Qed.

(** * Beyond the claims: the loaders, [compute_day_averages.py], the engine *)

(** ** Canonical keys *)

Lemma lower_ascii_idem c : lower_ascii (lower_ascii c) = lower_ascii c.
Proof. destruct c as [[] [] [] [] [] [] [] []]; reflexivity. Qed.

Lemma is_space_lower c : is_space (lower_ascii c) = is_space c.
Proof. destruct c as [[] [] [] [] [] [] [] []]; reflexivity. Qed.

Lemma lower_idem s : lower (lower s) = lower s.
Proof.
  induction s as [|c s IH]; simpl; auto. now rewrite lower_ascii_idem, IH.
Qed.

Lemma lower_eqb_empty s : String.eqb (lower s) "" = String.eqb s "".
Proof. now destruct s. Qed.

Lemma lower_lstrip s : lower (lstrip s) = lstrip (lower s).
Proof.
  induction s as [|c s IH]; simpl; auto.
  rewrite is_space_lower. now destruct (is_space c).
Qed.

Lemma lower_rstrip s : lower (rstrip s) = rstrip (lower s).
Proof.
  induction s as [|c s IH]; simpl; auto.
  rewrite <- IH, is_space_lower.
  destruct (rstrip s) as [|d r]; simpl; auto. now destruct (is_space c).
Qed.

Lemma lower_strip s : lower (strip s) = strip (lower s).
Proof. unfold strip. now rewrite lower_rstrip, lower_lstrip. Qed.

Lemma rstrip_cons c s :
  rstrip (String c s)
  = match rstrip s with
    | EmptyString => if is_space c then EmptyString else String c EmptyString
    | String d r => String c (String d r)
    end.
Proof. reflexivity. Qed.

Lemma rstrip_idem s : rstrip (rstrip s) = rstrip s.
Proof.
  induction s as [|c s IH]; auto.
  rewrite (rstrip_cons c s). destruct (rstrip s) as [|d r] eqn:E.
  - destruct (is_space c) eqn:Hc; auto. rewrite rstrip_cons. cbn [rstrip].
    now rewrite Hc.
  - rewrite rstrip_cons. now rewrite IH.
Qed.

Lemma lstrip_head s :
  lstrip s = "" \/ exists c r, lstrip s = String c r /\ is_space c = false.
Proof.
  induction s as [|c s IH]; simpl; auto.
  destruct (is_space c) eqn:Hc; auto. right. eauto.
Qed.

Lemma rstrip_head c s :
  is_space c = false -> exists r, rstrip (String c s) = String c r.
Proof.
  intros Hc. simpl. destruct (rstrip s); rewrite ?Hc; eauto.
Qed.

Lemma strip_idem s : strip (strip s) = strip s.
Proof.
  unfold strip. destruct (lstrip_head s) as [->|(c & r & -> & Hc)]; auto.
  destruct (rstrip_head c r Hc) as [r' Hr]. rewrite Hr.
  cbn [lstrip]. rewrite Hc, <- Hr. apply rstrip_idem.
Qed.

(** A key made by [strip] and [lower] is left as it is by both. *)
Lemma canonical_key s :
  lower (lower (strip s)) = lower (strip s) /\
  strip (lower (strip s)) = lower (strip s).
Proof.
  split; [apply lower_idem|]. now rewrite <- lower_strip, strip_idem.
Qed.

(** ** The loaders *)

Lemma od_keys_set_In {V : Type} (d : odict V) k v k' :
  In k' (od_keys (od_set d k v)) -> k' = k \/ In k' (od_keys d).
Proof.
  destruct (in_dec string_dec k (od_keys d)) as [Hin|Hni].
  - rewrite od_keys_set_present by assumption. auto.
  - rewrite od_keys_set_absent, in_app_iff by assumption. simpl.
    intros [H|[H|[]]]; auto.
Qed.

Section LoaderFacts.

Context {F : Type}.

Lemma load_day_averages_snoc (rows : list (entry F)) r :
  load_day_averages (rows ++ [r]) = load_day_step (load_day_averages rows) r.
Proof. unfold load_day_averages. now rewrite fold_left_app. Qed.

Lemma load_peak_values_snoc (rows : list (string * option F)) r :
  load_peak_values (rows ++ [r]) = load_peak_step (load_peak_values rows) r.
Proof. unfold load_peak_values. now rewrite fold_left_app. Qed.

Lemma day_row_for_iff k (r : entry F) :
  day_row_for k r = true <-> entry_name r <> "" /\ lower (entry_name r) = k.
Proof.
  unfold day_row_for. rewrite andb_true_iff, negb_true_iff, String.eqb_eq.
  now rewrite String.eqb_neq.
Qed.

(** Every key of [day] is the lower-case form of the name of a row. *)
Lemma day_key_origin (rows : list (entry F)) k :
  In k (od_keys (load_day_averages rows)) ->
  exists r, In r rows /\ entry_name r <> "" /\ k = lower (entry_name r).
Proof.
  induction rows as [|[[crop avg] cnt] rows IH] using rev_ind; [intros []|].
  rewrite load_day_averages_snoc. unfold load_day_step.
  assert (Hold : In k (od_keys (load_day_averages rows)) ->
                 exists r, In r (rows ++ [(crop, avg, cnt)]) /\
                           entry_name r <> "" /\ k = lower (entry_name r)).
  { intros H. destruct (IH H) as (r & Hr & G). exists r. rewrite in_app_iff. auto. }
  destruct (String.eqb_spec crop "") as [->|Hc]; auto.
  destruct (od_get _ (lower crop)); intros H; apply od_keys_set_In in H as [->|H];
    auto; exists (crop, avg, cnt); rewrite in_app_iff; simpl; auto.
Qed.

(** Every key of [peak] is the lower-case form of the name of a row. *)
Lemma peak_key_origin (rows : list (string * option F)) k :
  In k (od_keys (load_peak_values rows)) ->
  exists r, In r rows /\ fst r <> "" /\ k = lower (fst r).
Proof.
  induction rows as [|[crop val] rows IH] using rev_ind; [intros []|].
  rewrite load_peak_values_snoc. unfold load_peak_step.
  assert (Hold : In k (od_keys (load_peak_values rows)) ->
                 exists r, In r (rows ++ [(crop, val)]) /\
                           fst r <> "" /\ k = lower (fst r)).
  { intros H. destruct (IH H) as (r & Hr & G). exists r. rewrite in_app_iff. auto. }
  destruct (String.eqb_spec crop "") as [->|Hc]; auto.
  destruct val as [v|]; auto.
  intros H; apply od_keys_set_In in H as [->|H]; auto.
  exists (crop, Some v). rewrite in_app_iff. simpl. auto.
Qed.

(** X1: [load_day_averages] groups the rows by the lower-case form of the
    crop name: under a key are the rows with a name that is not empty and
    has that lower-case form, all of them, each once, in the order of the
    file; a key no row has is not in the dictionary. *)
Theorem day_rows_grouped_by_key (rows : list (entry F)) (k : string) :
  od_get (load_day_averages rows) k
  = match filter (day_row_for k) rows with
    | [] => None
    | r :: l => Some (r :: l)
    end.
Proof.
  induction rows as [|[[crop avg] cnt] rows IH] using rev_ind; auto.
  rewrite load_day_averages_snoc, filter_app. unfold load_day_step.
  cbn [filter]. unfold day_row_for at 2. cbn [entry_name fst].
  destruct (String.eqb_spec crop "") as [->|Hc].
  - cbn [negb andb]. now rewrite app_nil_r.
  - cbn [negb andb]. destruct (String.eqb_spec (lower crop) k) as [<-|Hk].
    + rewrite IH. destruct (filter (day_row_for (lower crop)) rows) as [|r l];
        now rewrite od_get_set_same.
    + rewrite app_nil_r, <- IH.
      destruct (od_get (load_day_averages rows) (lower crop));
        now rewrite od_get_set_other.
Qed.

(** X3: in [load_peak_values] the last usable row of a crop wins: the
    threshold under a key is the value of the last row whose name is not
    empty and has the key as lower-case form and whose value was converted;
    without such a row the key is missing. *)
Theorem peak_last_row_wins (rows : list (string * option F)) (k : string) :
  od_get (load_peak_values rows) k
  = match find (peak_row_for k) (rev rows) with
    | Some r => snd r
    | None => None
    end.
Proof.
  induction rows as [|[crop val] rows IH] using rev_ind; auto.
  rewrite load_peak_values_snoc, rev_app_distr. cbn [rev app find].
  unfold load_peak_step, peak_row_for at 1. cbn [fst snd].
  destruct (String.eqb_spec crop "") as [->|Hc]; [exact IH|].
  cbn [negb andb]. destruct val as [v|].
  - destruct (String.eqb_spec (lower crop) k) as [<-|Hk]; cbn [andb].
    + apply od_get_set_same.
    + now rewrite od_get_set_other.
  - now rewrite andb_false_r.
Qed.

End LoaderFacts.

(** X2: the keys both loaders store are canonical: not empty, and left as
    they are by [strip] and by [lower]; so a crop is found under the
    stripped lower-case form of any spelling of its name. *)
Theorem loader_keys_canonical {F : Type}
  (float_of_string : string -> option F) (int_of_string : string -> option Z)
  (day_rows peak_rows : list (odict string)) (k : string) :
  In k (od_keys (load_day_averages_raw float_of_string int_of_string day_rows)) \/
  In k (od_keys (load_peak_values_raw float_of_string peak_rows)) ->
  k <> "" /\ lower k = k /\ strip k = k.
Proof.
  assert (G : forall s, lower (strip s) <> "" ->
                lower (strip s) <> "" /\
                lower (lower (strip s)) = lower (strip s) /\
                strip (lower (strip s)) = lower (strip s)).
  { intros s Hs. split; auto. apply canonical_key. }
  intros [H|H].
  - apply day_key_origin in H as (r & Hr & Hne & ->).
    apply in_map_iff in Hr as (raw & <- & _). cbn in *.
    apply G. now apply lower_nonempty.
  - apply peak_key_origin in H as (r & Hr & Hne & ->).
    apply in_map_iff in Hr as (raw & <- & _). cbn in *.
    apply G. now apply lower_nonempty.
Qed.

Lemma loader_keys_canonical_witness :
  let no_float : string -> option Q := fun _ => None in
  let no_int : string -> option Z := fun _ => None in
  let day_rows := [[("crop", "  Wheat "); ("average", "1"); ("count", "2")]] in
  In "wheat" (od_keys (load_day_averages_raw no_float no_int day_rows)) /\
  "wheat" <> "" /\ lower "wheat" = "wheat" /\ strip "wheat" = "wheat".
Proof.
  cbv zeta.
  assert (H : In "wheat"
                (od_keys (load_day_averages_raw (F := Q) (fun _ => None)
                            (fun _ => None)
                            [[("crop", "  Wheat "); ("average", "1");
                              ("count", "2")]]))).
  { vm_compute. auto. }
  split; [exact H|].
  exact (loader_keys_canonical (fun _ => None) (fun _ => None) _ [] "wheat"
           (or_introl H)).
Defined.

(** X4: the thresholds are matched without regard to case: writing the crop
    names of the threshold table in lower case changes neither the
    dictionary of thresholds nor what [compute_top10] returns. *)
Theorem thresholds_case_insensitive {F : Type} {N : Number F}
  (rows : list (entry F)) (peak_rows : list (string * option F)) :
  let lowered := map (fun r => (lower (fst r), snd r)) peak_rows in
  load_peak_values lowered = load_peak_values peak_rows /\
  compute_top10 rows lowered = compute_top10 rows peak_rows.
Proof.
  cbv zeta.
  assert (E : load_peak_values (map (fun r => (lower (fst r), snd r)) peak_rows)
              = load_peak_values peak_rows).
  { unfold load_peak_values. generalize (@nil (string * F)).
    induction peak_rows as [|[crop val] l IH]; intros d; auto.
    cbn [map fold_left fst snd]. rewrite IH. f_equal.
    unfold load_peak_step. now rewrite lower_eqb_empty, lower_idem. }
  split; [exact E|]. unfold compute_top10. now rewrite E.
Qed.

(** ** [read_second_column_values] *)

Lemma split_comma_length s :
  (1 <= List.length (split_comma s))%nat /\
  contains_comma s = (2 <=? List.length (split_comma s))%nat.
Proof.
  induction s as [|c s [IH1 IH2]]; [split; auto|].
  cbn [split_comma contains_comma]. destruct (Ascii.eqb c ","); cbn [orb].
  - cbn [List.length]. split; [lia|].
    symmetry. apply Nat.leb_le. lia.
  - destruct (split_comma s) as [|p ps]; [cbn in IH1; lia|].
    cbn [List.length] in *. split; [lia|exact IH2].
Qed.

Lemma last_map {A B : Type} (f : A -> B) (l : list A) (d : A) :
  last (map f l) (f d) = f (last l d).
Proof.
  induction l as [|x l IH]; auto.
  cbn [map]. destruct l as [|y l]; auto.
Qed.

Lemma last_map_strip (l : list string) :
  last (map strip l) "" = strip (last l "").
Proof. exact (last_map strip l ""). Qed.

Section ReadFacts.

Context {F : Type} {N : Number F}.

Variable float_of_string : string -> option F.
Variable isfinite : F -> bool.

Lemma read_line_app values raw :
  read_line float_of_string isfinite values raw
  = values ++ read_line float_of_string isfinite [] raw.
Proof.
  unfold read_line.
  repeat match goal with
         | |- context [if ?b then _ else _] => destruct b
         | |- context [match float_of_string ?s with _ => _ end] =>
             destruct (float_of_string s)
         end; now rewrite ?app_nil_r.
Qed.

Lemma read_fold_app lines acc :
  fold_left (read_line float_of_string isfinite) lines acc
  = acc ++ fold_left (read_line float_of_string isfinite) lines [].
Proof.
  revert acc. induction lines as [|raw lines IH]; intros acc; cbn [fold_left].
  - now rewrite app_nil_r.
  - rewrite IH, (IH (read_line float_of_string isfinite [] raw)),
      (read_line_app acc raw).
    now rewrite app_assoc.
Qed.

(** What one line adds: nothing, or the one value converted from its last
    field, which is then neither zero nor infinite nor a NaN. *)
Lemma read_line_value raw v :
  In v (read_line float_of_string isfinite [] raw) ->
  truthy v = true /\ isfinite v = true /\
  float_of_string (strip (last (split_comma (strip raw)) "")) = Some v.
Proof.
  unfold read_line. rewrite last_map_strip.
  repeat match goal with
         | |- context [if ?b then _ else _] => destruct b eqn:?
         | |- context [match float_of_string ?s with _ => _ end] =>
             destruct (float_of_string s) eqn:?
         end; cbn [app In]; intros H; try contradiction.
  destruct H as [<-|[]]. repeat split; auto.
  now apply negb_false_iff.
Qed.

(** X5: [read_second_column_values] never returns a zero, an infinity or a
    NaN, and every value it returns was converted from the stripped last
    field of a line of the file. *)
Theorem read_values_nonzero_finite (file : option (list string)) :
  Forall
    (fun v =>
       truthy v = true /\ isfinite v = true /\
       exists lines raw,
         file = Some lines /\ In raw lines /\
         float_of_string (strip (last (split_comma (strip raw)) "")) = Some v)
    (read_second_column_values float_of_string isfinite file).
Proof.
  destruct file as [lines|]; [|constructor].
  apply Forall_forall. intros v. cbn [read_second_column_values].
  induction lines as [|raw lines IH] using rev_ind; [intros []|].
  rewrite fold_left_app. cbn [fold_left]. rewrite read_line_app, in_app_iff.
  intros [H|H].
  - destruct (IH H) as (Ht & Hf & l & r & E & Hr & Hv).
    injection E as <-. repeat split; auto.
    exists (lines ++ [raw]), r. rewrite in_app_iff. auto.
  - destruct (read_line_value raw v H) as (Ht & Hf & Hv). repeat split; auto.
    exists (lines ++ [raw]), raw. rewrite in_app_iff. simpl. auto.
Qed.

(** X6: the lines of a file are read independently and in order: the values
    of a file are the values of any first part of it followed by the values
    of the rest. *)
Theorem read_values_concat (lines1 lines2 : list string) :
  read_second_column_values float_of_string isfinite (Some (lines1 ++ lines2))
  = read_second_column_values float_of_string isfinite (Some lines1)
    ++ read_second_column_values float_of_string isfinite (Some lines2).
Proof.
  cbn [read_second_column_values]. rewrite fold_left_app.
  apply read_fold_app.
Qed.

End ReadFacts.

(** X7: the test of line 41 never fires: a stripped line has a comma exactly
    when [split] gives it two parts or more, so after the test of line 38
    the list of parts is never shorter than two. *)
Theorem split_guard_never_fires (raw : string) :
  let line := strip raw in
  let parts := map strip (split_comma line) in
  contains_comma line = negb (List.length parts <? 2)%nat /\
  parts <> [].
Proof.
  cbv zeta. rewrite length_map.
  destruct (split_comma_length (strip raw)) as [H1 H2]. split.
  - rewrite H2. destruct (Nat.leb_spec 2 (List.length (split_comma (strip raw))));
      destruct (Nat.ltb_spec (List.length (split_comma (strip raw))) 2); auto; lia.
  - destruct (split_comma (strip raw)); [cbn in H1; lia|discriminate].
Qed.

(** ** [compute_averages] *)

Lemma str_lt_spec a b : str_lt a b = true <-> String_as_OT.lt a b.
Proof.
  unfold str_lt, String_as_OT.lt.
  destruct (String_as_OT.compare a b); split; congruence.
Qed.

Lemma name_trichotomy a b : name_lt a b \/ a = b \/ name_lt b a.
Proof.
  unfold name_lt. rewrite !str_lt_spec.
  destruct (String_as_OT.compare_spec a b); auto.
Qed.

Lemma name_lt_le a b : name_lt a b -> name_le a b.
Proof.
  unfold name_lt, name_le. intros H.
  destruct (str_lt b a) eqn:E; auto. exfalso.
  apply str_lt_spec in H, E.
  apply (StrictOrder_Irreflexive a). now transitivity b.
Qed.

Lemma name_le_trans a b c : name_le a b -> name_le b c -> name_le a c.
Proof.
  unfold name_le. intros Hab Hbc.
  destruct (str_lt c a) eqn:E; auto. exfalso.
  destruct (name_trichotomy a b) as [H|[->|H]]; unfold name_lt in *;
    try congruence.
  apply str_lt_spec in H, E. assert (G : String_as_OT.lt c b) by now transitivity a.
  apply str_lt_spec in G. congruence.
Qed.

Lemma insert_name_perm x l : Permutation (insert_name x l) (x :: l).
Proof.
  induction l as [|y l IH]; cbn [insert_name]; auto.
  destruct (str_lt y x); auto.
  apply perm_trans with (y :: x :: l); [now apply perm_skip|apply perm_swap].
Qed.

Lemma sorted_names_perm l : Permutation (sorted_names l) l.
Proof.
  induction l as [|x l IH]; cbn [sorted_names fold_right]; auto.
  fold (sorted_names l). apply perm_trans with (x :: sorted_names l);
    [apply insert_name_perm|now apply perm_skip].
Qed.

Lemma insert_name_sorted x l :
  StronglySorted name_le l -> StronglySorted name_le (insert_name x l).
Proof.
  induction l as [|y l IH]; intros Hs; cbn [insert_name].
  - repeat constructor.
  - inversion Hs as [|? ? Hs' Hall]; subst.
    destruct (str_lt y x) eqn:E.
    + constructor; auto.
      apply (Permutation_Forall (Permutation_sym (insert_name_perm x l))).
      constructor; auto. now apply name_lt_le.
    + constructor; auto. constructor; [exact E|].
      eapply Forall_impl; [|exact Hall]. intros z Hz.
      now apply (name_le_trans x y z).
Qed.

Lemma sorted_names_sorted l : StronglySorted name_le (sorted_names l).
Proof.
  induction l as [|x l IH]; cbn [sorted_names fold_right];
    [constructor|now apply insert_name_sorted].
Qed.

Lemma sorted_strict l :
  NoDup l -> StronglySorted name_le l -> StronglySorted name_lt l.
Proof.
  induction l as [|x l IH]; intros Hnd Hs; [constructor|].
  inversion Hnd as [|? ? Hni Hnd']; inversion Hs as [|? ? Hs' Hall]; subst.
  constructor; auto. rewrite Forall_forall in *. intros y Hy.
  destruct (name_trichotomy x y) as [H|[->|H]]; auto; [contradiction|].
  pose proof (Hall y Hy) as Hle. unfold name_le, name_lt in *. congruence.
Qed.

Lemma filter_sorted {A : Type} (R : A -> A -> Prop) (p : A -> bool) l :
  StronglySorted R l -> StronglySorted R (filter p l).
Proof.
  induction l as [|x l IH]; intros Hs; [constructor|].
  inversion Hs as [|? ? Hs' Hall]; subst. cbn [filter].
  destruct (p x); auto. constructor; auto.
  rewrite Forall_forall in *. intros y Hy. apply filter_In in Hy as [Hy _]. auto.
Qed.

Section AveragesFacts.

Context {F : Type} {N : Number F}.

Variable float_of_string : string -> option F.
Variable isfinite : F -> bool.

(** The division of line 69 is guarded by [if vals:]. *)
Lemma averages_step_rows (fs : odict node) results name :
  averages_step float_of_string isfinite fs results name
  = Ok (results ++ average_rows float_of_string isfinite fs name).
Proof.
  unfold averages_step, average_rows.
  destruct (od_get fs name) as [[|[lines|]]|]; try now rewrite app_nil_r.
  cbv zeta.
  destruct (read_second_column_values float_of_string isfinite (Some lines))
    as [|v vals]; reflexivity.
Qed.

Lemma compute_averages_rows (fs : odict node) :
  compute_averages float_of_string isfinite fs
  = Ok (flat_map (average_rows float_of_string isfinite fs)
          (sorted_names (od_keys fs))).
Proof.
  unfold compute_averages.
  change (flat_map (average_rows float_of_string isfinite fs)
            (sorted_names (od_keys fs)))
    with ([] ++ flat_map (average_rows float_of_string isfinite fs)
                  (sorted_names (od_keys fs))).
  generalize (@nil (entry F)). induction (sorted_names (od_keys fs)) as [|n l IH];
    intros acc; cbn [for_each flat_map].
  - now rewrite app_nil_r.
  - rewrite averages_step_rows. cbn [bind]. rewrite IH. now rewrite app_assoc.
Qed.

Lemma average_rows_In (fs : odict node) name row :
  In row (average_rows float_of_string isfinite fs name) ->
  exists lines,
    od_get fs name = Some (Directory (Some lines)) /\
    entry_name row = name /\
    entry_cnt row
    = Z.of_nat (List.length
                  (read_second_column_values float_of_string isfinite (Some lines))) /\
    (entry_avg row = None <-> entry_cnt row = 0) /\
    (forall a, entry_avg row = Some a ->
       a = py_sum (read_second_column_values float_of_string isfinite (Some lines))
           /! of_int (entry_cnt row)).
Proof.
  unfold average_rows.
  destruct (od_get fs name) as [[|[lines|]]|]; try (intros H; contradiction H).
  cbv zeta. intros Hrow. exists lines. split; auto. revert Hrow.
  destruct (read_second_column_values float_of_string isfinite (Some lines))
    as [|v vals]; intros [<-|[]]; cbn [entry_name entry_cnt entry_avg fst snd].
  - repeat split; auto; discriminate.
  - repeat split; auto; try discriminate; try (cbn [List.length]; lia).
    intros a H. now injection H as <-.
Qed.

(** X8: on a directory whose [Day.csv] files can be read, the division by
    [len(vals)] is guarded and [compute_averages] returns its rows without a
    [ZeroDivisionError]; in every row the count is the number of values read
    from the crop's [Day.csv], so not negative, and the average is absent
    exactly when the count is zero. *)
Theorem compute_averages_rows_wellformed (fs : odict node) :
  exists rows,
    compute_averages float_of_string isfinite fs = Ok rows /\
    counts_nonneg rows /\
    forall name avg cnt, In (name, avg, cnt) rows ->
      (avg = None <-> cnt = 0) /\
      exists lines,
        od_get fs name = Some (Directory (Some lines)) /\
        cnt = Z.of_nat
                (List.length
                   (read_second_column_values float_of_string isfinite (Some lines))).
Proof.
  eexists. split; [apply compute_averages_rows|]. split.
  - intros row Hrow. apply in_flat_map in Hrow as (n & _ & Hrow).
    apply average_rows_In in Hrow as (lines & _ & _ & -> & _). lia.
  - intros name avg cnt Hrow. apply in_flat_map in Hrow as (n & _ & Hrow).
    apply average_rows_In in Hrow as (lines & Hget & Hn & Hc & Hiff & _).
    cbn [entry_name entry_cnt entry_avg fst snd] in *. subst n.
    split; [exact Hiff|]. eauto.
Qed.

(** X9: the rows of [compute_averages] are in ascending order of the crop
    names, without repetition, one for each name of the listing that is a
    directory holding a [Day.csv] and for no other name. *)
Theorem compute_averages_sorted (fs : odict node) :
  NoDup (od_keys fs) ->
  exists rows,
    compute_averages float_of_string isfinite fs = Ok rows /\
    StronglySorted name_lt (map entry_name rows) /\
    forall name, In name (map entry_name rows) <-> has_day fs name = true.
Proof.
  intros Hnd. eexists. split; [apply compute_averages_rows|].
  assert (E : map entry_name
                (flat_map (average_rows float_of_string isfinite fs)
                   (sorted_names (od_keys fs)))
              = filter (has_day fs) (sorted_names (od_keys fs))).
  { induction (sorted_names (od_keys fs)) as [|n l IH]; auto.
    cbn [flat_map filter]. rewrite map_app, IH. unfold average_rows, has_day.
    destruct (od_get fs n) as [[|[lines|]]|]; auto. cbv zeta.
    now destruct (read_second_column_values float_of_string isfinite (Some lines)). }
  rewrite E. split.
  - apply filter_sorted, sorted_strict; [|apply sorted_names_sorted].
    apply (Permutation_NoDup (Permutation_sym (sorted_names_perm _)) Hnd).
  - intros name. rewrite filter_In. split; [tauto|]. intros H. split; auto.
    apply (Permutation_in _ (Permutation_sym (sorted_names_perm _))).
    unfold has_day in H. destruct (od_get fs name) eqn:G; [|discriminate].
    eapply od_get_Some_key; eauto.
Qed.

End AveragesFacts.

Lemma compute_averages_sorted_witness :
  let fs := [("wheat", Directory (Some ["time,value"; "0,12"]));
             ("notes.txt", NotDirectory); ("Rice", Directory None)] in
  NoDup (od_keys fs) /\
  exists rows,
    compute_averages (F := Q) (fun _ => None) (fun _ => true) fs = Ok rows /\
    StronglySorted name_lt (map entry_name rows) /\
    forall name, In name (map entry_name rows) <-> has_day fs name = true.
Proof.
  cbv zeta.
  assert (H : NoDup (od_keys [("wheat", Directory (Some ["time,value"; "0,12"]));
                              ("notes.txt", NotDirectory);
                              ("Rice", Directory None)])).
  { cbn. repeat constructor; cbn; intuition discriminate. }
  split; [exact H|].
  exact (compute_averages_sorted (F := Q) (fun _ => None) (fun _ => true) _ H).
Defined.

Lemma py_sum_bounds (vals : list Q) (lo hi acc : Q) (n : nat) :
  (forall v, In v vals -> lo <= v <= hi)%Q ->
  (lo * inject_Z (Z.of_nat n) <= acc <= hi * inject_Z (Z.of_nat n))%Q ->
  (lo * inject_Z (Z.of_nat (n + List.length vals))
   <= fold_left Qplus vals acc
   <= hi * inject_Z (Z.of_nat (n + List.length vals)))%Q.
Proof.
  revert acc n. induction vals as [|v vals IH]; intros acc n Hb Hacc.
  - cbn [fold_left List.length]. now rewrite Nat.add_0_r.
  - cbn [fold_left List.length].
    replace (n + S (List.length vals))%nat with (S n + List.length vals)%nat by lia.
    apply IH; [intros w Hw; apply Hb; now right|].
    pose proof (Hb v (or_introl eq_refl)) as [Hlo Hhi].
    rewrite Nat2Z.inj_succ. unfold Z.succ. rewrite inject_Z_plus.
    change (inject_Z 1) with 1%Q. lra.
Qed.

(** X10: in exact arithmetic, the average [compute_averages] writes for a crop
    lies between any lower and any upper bound of the values read from the
    crop's [Day.csv]. *)
Theorem compute_averages_mean_bounded
  (float_of_string : string -> option Q) (isfinite : Q -> bool)
  (fs : odict node) :
  exists rows,
    compute_averages float_of_string isfinite fs = Ok rows /\
    forall name avg cnt, In (name, Some avg, cnt) rows ->
      exists lines,
        od_get fs name = Some (Directory (Some lines)) /\
        forall lo hi,
          (forall v,
             In v (read_second_column_values float_of_string isfinite (Some lines)) ->
             lo <= v <= hi)%Q ->
          (lo <= avg <= hi)%Q.
Proof.
  eexists. split; [apply compute_averages_rows|].
  intros name avg cnt Hrow. apply in_flat_map in Hrow as (n & _ & Hrow).
  apply average_rows_In in Hrow as (lines & Hget & Hn & Hc & Hiff & Havg).
  cbn [entry_name entry_cnt entry_avg fst snd] in *. subst n.
  exists lines. split; [exact Hget|]. intros lo hi Hb.
  rewrite (Havg avg eq_refl).
  assert (Hpos : (0 < cnt)%Z).
  { assert (cnt <> 0)%Z by (intros H0; apply Hiff in H0; discriminate). lia. }
  assert (Hq : (0 < inject_Z cnt)%Q).
  { change 0%Q with (inject_Z 0). now rewrite <- Zlt_Qlt. }
  pose proof (py_sum_bounds _ lo hi (inject_Z 0) 0 Hb) as Hs.
  cbn [Nat.add] in Hs. rewrite <- Hc in Hs.
  change (inject_Z (Z.of_nat 0)) with 0%Q in Hs. change (inject_Z 0) with 0%Q in Hs.
  destruct Hs as [H1 H2]; [lra|].
  unfold py_sum. cbn [nadd ndiv of_int exact]. change (inject_Z 0) with 0%Q.
  split; [now apply Qle_shift_div_l|now apply Qle_shift_div_r].
Qed.

(** ** The engine: names, groups and results *)

Section EngineFacts.

Context {F : Type} {N : Number F}.

Lemma agg_fold_name (entries : list (entry F)) tw tc n :
  snd (fold_left agg_step entries (tw, tc, n))
  = match find counted (rev entries) with
    | Some e => entry_name e
    | None => n
    end.
Proof.
  revert tw tc n. induction entries as [|[[orig avg] cnt] es IH]; intros tw tc n;
    [reflexivity|].
  cbn [fold_left rev]. rewrite find_snoc.
  unfold counted at 2, has_avg. cbn [entry_avg entry_cnt fst snd agg_step].
  destruct avg as [a|]; cbn [andb];
    [destruct (Z.eqb_spec cnt 0) as [->|Hne]; cbn [negb]|];
    rewrite IH; now destruct (find counted (rev es)).
Qed.

Lemma display_name_In (entries : list (entry F)) :
  entries <> [] -> exists e, In e entries /\ entry_name e = display_name entries.
Proof.
  intros Hne. unfold display_name.
  destruct (find counted (rev entries)) as [e|] eqn:G.
  - apply find_some in G as [Hin _]. apply in_rev in Hin. eauto.
  - destruct entries as [|e es]; [congruence|]. exists e. split; auto. now left.
Qed.

(** The name of a record the aggregator stores is the name of an entry. *)
Lemma aggregate_key_name_In (entries : list (entry F)) rec :
  aggregate_key entries = Ok (Some rec) ->
  exists e, In e entries /\ entry_name e = entry_name rec.
Proof.
  destruct entries as [|e es]; [discriminate|].
  rewrite aggregate_key_cons. cbv zeta.
  destruct (0 <? total_count_of (e :: es)).
  - intros H. injection H as <-. cbn [entry_name fst].
    unfold agg_loop. rewrite agg_fold_name.
    destruct (display_name_In (e :: es)) as (x & Hx & Ex); [discriminate|].
    exists x. split; [exact Hx|exact Ex].
  - rewrite pick_find. intros H.
    assert (G : find has_avg (e :: es) = Some rec) by congruence.
    apply find_some in G as [Hin _]. eauto.
Qed.

End EngineFacts.

(** X11: when the total weight of the entries of a key is positive, the name
    of the record the aggregator stores is the name of the last entry that
    has an average and a non-zero count; when no entry has both it is the
    name of the first entry, whether or not that entry has an average. *)
Theorem aggregator_display_name {F : Type} {N : Number F}
  (entries : list (entry F)) :
  0 < total_count_of entries ->
  exists avg,
    aggregate_key entries
    = Ok (Some (display_name entries, Some avg, total_count_of entries)).
Proof.
  intros Hpos. destruct entries as [|e es]; [cbn in Hpos; lia|].
  rewrite aggregate_key_cons. cbv zeta.
  destruct (Z.ltb_spec 0 (total_count_of (e :: es))) as [_|Hle]; [|lia].
  eexists. do 3 f_equal. unfold agg_loop. rewrite agg_fold_name.
  unfold display_name. now destruct (find counted (rev (e :: es))).
Qed.

Lemma aggregator_display_name_witness :
  let entries : list (entry Q) :=
    [("wheat", None, 4); ("Wheat", Some 120%Q, 5); ("WHEAT", Some 90%Q, 0)] in
  0 < total_count_of entries /\
  display_name entries = "Wheat" /\
  exists avg,
    aggregate_key entries
    = Ok (Some (display_name entries, Some avg, total_count_of entries)).
Proof.
  cbv zeta. split; [reflexivity|]. split; [reflexivity|].
  apply (aggregator_display_name
           [("wheat", None, 4); ("Wheat", Some 120%Q, 5); ("WHEAT", Some 90%Q, 0)]).
  reflexivity.
Defined.

(** ** The merge on groups *)

Lemma od_set_absent {V : Type} (d : odict V) k v :
  ~ In k (od_keys d) -> od_set d k v = d ++ [(k, v)].
Proof.
  induction d as [|[k' v'] d IH]; intros H; cbn [od_set app]; auto.
  destruct (String.eqb_spec k' k) as [->|Hne].
  - exfalso. apply H. now left.
  - rewrite IH; auto. intros Hin. apply H. now right.
Qed.

Section MergeFacts.

Context {F : Type} {N : Number F}.

(** The keys of [final_merged] keep pairwise distinct sorted letters. *)
Lemma merge_step_signatures (fm : odict (entry F)) kv :
  NoDup (map signature (od_keys fm)) ->
  exists fm', merge_step fm kv = Ok fm' /\ NoDup (map signature (od_keys fm')).
Proof.
  destruct kv as [key [[name avg] cnt]]. intros Hnd.
  destruct (merge_step_cases fm key name avg cnt)
    as [(Hnone & E)|[(fk & prev & a & Hfk & _ & _ & _ & E)|(Hfk & -> & E)]];
    eexists; (split; [exact E|]).
  - assert (Hnew : ~ In key (od_keys fm)).
    { intros Hin. now apply (find_anagram_None fm (signature key) key). }
    rewrite od_keys_set_absent, map_app by assumption.
    apply NoDup_app; auto.
    + cbn. constructor; [intros []|constructor].
    + intros s Hs [<-|[]]. apply in_map_iff in Hs as (k & Hk & Hin).
      now apply (find_anagram_None fm (signature key) k).
  - apply find_anagram_Some in Hfk as [Hin _].
    now rewrite od_keys_set_present.
  - apply find_anagram_Some in Hfk as [Hin _].
    now rewrite od_keys_set_present.
Qed.

Lemma merge_anagrams_signatures (merged : odict (entry F)) :
  exists fm, merge_anagrams merged = Ok fm /\ NoDup (map signature (od_keys fm)).
Proof.
  apply (for_each_invariant merge_step
           (fun fm => NoDup (map signature (od_keys fm))) merged).
  - intros s x _ Hs. now apply merge_step_signatures.
  - constructor.
Qed.

(** Records whose keys have pairwise distinct sorted letters pass the merge
    one by one, each appended as it is. *)
Lemma merge_distinct_from (l acc : odict (entry F)) :
  NoDup (map signature (od_keys (acc ++ l))) ->
  for_each merge_step l acc = Ok (acc ++ l).
Proof.
  revert acc. induction l as [|[key [[name avg] cnt]] l IH]; intros acc Hnd.
  - now rewrite app_nil_r.
  - cbn [for_each].
    assert (Hfresh : ~ In (signature key) (map signature (od_keys acc))).
    { unfold od_keys in Hnd. rewrite !map_app in Hnd. cbn [map fst] in Hnd.
      apply NoDup_remove_2 in Hnd. intros Hin. apply Hnd.
      apply in_or_app. now left. }
    assert (Hnone : find_anagram acc (signature key) = None).
    { destruct (find_anagram acc (signature key)) as [fk|] eqn:G; auto.
      apply find_anagram_Some in G as [Hin Hs]. exfalso. apply Hfresh.
      rewrite <- Hs. now apply in_map. }
    assert (Hnew : ~ In key (od_keys acc)).
    { intros Hin. apply Hfresh. now apply in_map. }
    destruct (merge_step_cases acc key name avg cnt)
      as [(_ & E)|[(fk & prev & a & Hfk & _)|(Hfk & _)]]; try congruence.
    rewrite od_set_absent in E by assumption.
    match goal with
    | |- bind ?m _ = _ => replace m with (Ok (acc ++ [(key, (name, avg, cnt))]))
    end.
    cbn [bind]. rewrite IH; rewrite <- app_assoc; auto.
Qed.

End MergeFacts.

(** X12: the merge of anagrams returns, unchanged and in the same order, a
    dictionary whose keys have pairwise distinct sorted letters; and what it
    returns for any dictionary is such a dictionary, so that merging a second
    time changes nothing. *)
Theorem merge_anagrams_idempotent {F : Type} {N : Number F}
  (merged : odict (entry F)) :
  (NoDup (map signature (od_keys merged)) -> merge_anagrams merged = Ok merged) /\
  exists fm,
    merge_anagrams merged = Ok fm /\
    NoDup (map signature (od_keys fm)) /\
    merge_anagrams fm = Ok fm.
Proof.
  split.
  - intros Hnd. apply (merge_distinct_from merged []). exact Hnd.
  - destruct (merge_anagrams_signatures merged) as (fm & Hrun & Hnd).
    exists fm. split; [exact Hrun|]. split; [exact Hnd|].
    apply (merge_distinct_from fm []). exact Hnd.
Qed.

(** *** The average of a group, in exact arithmetic *)

Lemma or_zero_exact (a : Q) : (or_zero (Some a) == a)%Q.
Proof.
  unfold or_zero. cbn [truthy exact nzero].
  destruct (Qeq_bool a 0) eqn:E; cbn [negb]; [|reflexivity].
  apply Qeq_bool_eq in E. now rewrite E.
Qed.

Lemma group_wsum_app (merged merged' : odict (entry Q)) s :
  (group_wsum (merged ++ merged') s
   == group_wsum merged s + group_wsum merged' s)%Q.
Proof.
  unfold group_wsum. rewrite filter_app, map_app.
  induction (map _ (filter _ merged)) as [|x l IH]; cbn [app fold_right];
    [|rewrite IH]; ring.
Qed.

Lemma group_wsum_none (merged : odict (entry Q)) s :
  (forall k, In k (od_keys merged) -> signature k <> s) ->
  group_wsum merged s = 0%Q.
Proof.
  intros H. unfold group_wsum.
  induction merged as [|[k rec] m IH]; cbn [filter map fold_right fst]; auto.
  destruct (String.eqb_spec (signature k) s) as [Heq|Hne].
  - exfalso. apply (H k); [now left|exact Heq].
  - apply IH. intros k' Hk'. apply H. now right.
Qed.

Lemma group_wsum_one k (a : Q) name cnt s :
  (group_wsum [(k, (name, Some a, cnt))] s
   == if String.eqb (signature k) s then a * inject_Z cnt else 0)%Q.
Proof.
  unfold group_wsum. cbn [filter fst].
  destruct (String.eqb (signature k) s); cbn; ring.
Qed.

Lemma group_wsum_perm (merged merged' : odict (entry Q)) s :
  Permutation merged merged' -> (group_wsum merged s == group_wsum merged' s)%Q.
Proof.
  intros H. unfold group_wsum.
  induction H as [|x l l' H IH|x y l|l l' l'' H IH H' IH'];
    cbn [filter map fold_right].
  - reflexivity.
  - destruct (String.eqb _ _); cbn [map fold_right]; rewrite ?IH; reflexivity.
  - destruct (String.eqb (signature (fst x)) s), (String.eqb (signature (fst y)) s);
      cbn [map fold_right]; ring.
  - now rewrite IH.
Qed.

(** What the merge keeps true of the averages: under each key, average times
    weight is the weighted sum of the records with the key's signature. *)
Lemma merge_anagrams_wsum (merged : odict (entry Q)) :
  NoDup (od_keys merged) ->
  (forall k rec, In (k, rec) merged -> weighty rec) ->
  exists fm,
    merge_anagrams merged = Ok fm /\
    merged_into merged fm /\
    forall r rec, od_get fm r = Some rec ->
      exists a, entry_avg rec = Some a /\
        (a * inject_Z (entry_cnt rec) == group_wsum merged (signature r))%Q.
Proof.
  induction merged as [|[key [[name avg] cnt]] p IH] using rev_ind; intros Hnd Hw.
  - exists []. split; [reflexivity|]. split.
    + split; [reflexivity|discriminate].
    + discriminate.
  - pose proof Hnd as Hnd'. rewrite od_keys_app in Hnd'. cbn in Hnd'.
    assert (Hndp : NoDup (od_keys p)) by now apply NoDup_app_remove_r in Hnd'.
    assert (Hkey : ~ In key (od_keys p)).
    { intros Hin. apply NoDup_remove_2 in Hnd'. rewrite app_nil_r in Hnd'. auto. }
    assert (Hwp : forall k rec, In (k, rec) p -> weighty rec).
    { intros k rec Hin. apply (Hw k). apply in_or_app. now left. }
    destruct (Hw key (name, avg, cnt)) as [Havg Hcnt];
      [apply in_or_app; right; now left|].
    cbn [entry_avg entry_cnt fst snd] in Havg, Hcnt.
    destruct avg as [b|]; [clear Havg|congruence].
    destruct (IH Hndp Hwp) as (fm & Hrun & Hinto & Hsum). clear IH.
    destruct (merge_anagrams_into (p ++ [(key, (name, Some b, cnt))]) Hnd)
      as (fm' & Hrun' & Hinto').
    exists fm'. split; [exact Hrun'|]. split; [exact Hinto'|].
    pose proof (merge_anagrams_weighty p fm Hwp Hrun) as Hwfm.
    destruct Hinto as [Hkeys Hrec].
    pose proof (representatives_NoDup (od_keys p)) as Hsig.
    rewrite <- Hkeys in Hsig.
    unfold merge_anagrams in Hrun, Hrun'. rewrite for_each_snoc, Hrun in Hrun'.
    cbn [bind] in Hrun'.
    destruct (merge_step_cases fm key name (Some b) cnt)
      as [(Hnone & Hstep)|[(fk & prev & a & Hfk & Hne & Hget & Hfold & Hstep)
                          |(Hfk & -> & _)]].
    + (* a new group *)
      pose proof (eq_trans (eq_sym Hstep) Hrun') as E. injection E as <-.
      assert (Hfresh : forall k, In k (od_keys p) -> signature k <> signature key).
      { intros k Hk Heq. destruct (representatives_cover _ _ Hk) as (r & Hr & Hs).
        rewrite <- Hkeys in Hr.
        apply (find_anagram_None fm (signature key) r); congruence. }
      intros r rec. destruct (string_dec key r) as [<-|Hr].
      * rewrite od_get_set_same. intros H. injection H as <-.
        exists b. split; [reflexivity|].
        rewrite group_wsum_app, group_wsum_one.
        rewrite String.eqb_refl, group_wsum_none by assumption.
        cbn [entry_cnt snd]. ring.
      * rewrite od_get_set_other by assumption. intros H.
        destruct (Hsum r rec H) as (a & Ha & Hs). exists a. split; [exact Ha|].
        rewrite group_wsum_app, group_wsum_one.
        destruct (String.eqb_spec (signature key) (signature r)) as [Heq|_].
        -- exfalso. apply od_get_Some_key in H.
           now apply (find_anagram_None fm (signature key) r).
        -- rewrite Hs. ring.
    + (* a fold into the group of [fk] *)
      pose proof (eq_trans (eq_sym Hstep) Hrun') as E. injection E as <-.
      destruct (find_anagram_Some _ _ _ Hfk) as [Hin Hs].
      destruct (Hwfm fk prev (od_get_In _ _ _ Hget)) as [_ Hpc].
      destruct (Hsum fk prev Hget) as (pa & Hpa & Hps).
      destruct (fold_into_spec prev (Some b) cnt) as (a' & Hf & Hpos & _).
      assert (a = a') by congruence. subst a'.
      intros r rec. destruct (string_dec fk r) as [<-|Hr].
      * rewrite od_get_set_same. intros H. injection H as <-.
        rewrite Hpos by lia. eexists. split; [reflexivity|].
        rewrite group_wsum_app, group_wsum_one.
        cbn [entry_cnt snd]. rewrite <- Hs, String.eqb_refl, Hpa, !or_zero_exact.
        cbn [nadd nmul ndiv of_int exact]. rewrite <- Hps.
        assert (Hq : ~ (inject_Z (entry_cnt prev + cnt) == 0)%Q).
        { change 0%Q with (inject_Z 0). rewrite inject_Z_injective. lia. }
        rewrite inject_Z_plus in *. field. exact Hq.
      * rewrite od_get_set_other by assumption. intros H.
        destruct (Hsum r rec H) as (a0 & Ha0 & Hs0). exists a0. split; [exact Ha0|].
        rewrite group_wsum_app, group_wsum_one.
        destruct (String.eqb_spec (signature key) (signature r)) as [Heq|_].
        -- exfalso. apply Hr. apply od_get_Some_key in H.
           apply (NoDup_map_eq signature (od_keys fm)); auto. congruence.
        -- rewrite Hs0. ring.
    + (* the empty key found: it would be a key seen twice *)
      exfalso. apply Hkey. apply representatives_incl. rewrite <- Hkeys.
      now apply (find_anagram_Some fm (signature "")).
Qed.

(** X13: in exact arithmetic, for records with distinct keys that each have
    an average and a weight of at least one, every record of the merge has
    the weight of its group and the weighted mean of its group: its average
    times its weight is the sum of average times weight over the records
    whose keys have the same sorted letters. *)
Theorem merge_group_weighted_mean (merged : odict (entry Q)) :
  NoDup (od_keys merged) ->
  (forall k rec, In (k, rec) merged -> weighty rec) ->
  exists fm,
    merge_anagrams merged = Ok fm /\
    forall r rec, In (r, rec) fm ->
      exists a,
        entry_avg rec = Some a /\
        entry_cnt rec = group_weight merged (signature r) /\
        (a * inject_Z (entry_cnt rec) == group_wsum merged (signature r))%Q.
Proof.
  intros Hnd Hw.
  destruct (merge_anagrams_wsum merged Hnd Hw) as (fm & Hrun & Hinto & Hsum).
  exists fm. split; [exact Hrun|]. intros r rec Hin.
  apply (In_od_get _ _ _ (merged_into_NoDup _ _ Hinto)) in Hin.
  destruct (Hsum r rec Hin) as (a & Ha & Hs).
  destruct Hinto as [_ Hrec]. destruct (Hrec r rec Hin) as [_ Hc].
  exists a. split; [exact Ha|]. split; [exact Hc|exact Hs].
Qed.

Lemma merge_group_weighted_mean_witness :
  let merged : odict (entry Q) :=
    [("jowar", ("Jowar", Some 50%Q, 4)); ("rice", ("Rice", Some 0%Q, 2));
     ("jawor", ("jawor", Some 70%Q, 6))] in
  NoDup (od_keys merged) /\
  (forall k rec, In (k, rec) merged -> weighty rec) /\
  exists fm,
    merge_anagrams merged = Ok fm /\
    forall r rec, In (r, rec) fm ->
      exists a,
        entry_avg rec = Some a /\
        entry_cnt rec = group_weight merged (signature r) /\
        (a * inject_Z (entry_cnt rec) == group_wsum merged (signature r))%Q.
Proof.
  cbv zeta.
  assert (Hnd : NoDup (od_keys (V := entry Q)
                         [("jowar", ("Jowar", Some 50%Q, 4));
                          ("rice", ("Rice", Some 0%Q, 2));
                          ("jawor", ("jawor", Some 70%Q, 6))])).
  { cbn. repeat constructor; cbn; intuition discriminate. }
  assert (Hw : forall k rec,
             In (k, rec) [("jowar", ("Jowar", Some 50%Q, 4));
                          ("rice", ("Rice", Some 0%Q, 2));
                          ("jawor", ("jawor", Some 70%Q, 6))] ->
             weighty rec).
  { intros k rec [H|[H|[H|[]]]]; injection H as _ <-; split; cbn;
      try discriminate; lia. }
  split; [exact Hnd|]. split; [exact Hw|].
  exact (merge_group_weighted_mean _ Hnd Hw).
Defined.

(** X14: in exact arithmetic the averages of the merge do not depend on the
    order of the records: for records with distinct keys that each have an
    average and a weight of at least one, and any reordering of them, the
    two merges give equal averages to the records of the same group. *)
Theorem merge_average_order_independent (merged merged' : odict (entry Q)) :
  NoDup (od_keys merged) ->
  (forall k rec, In (k, rec) merged -> weighty rec) ->
  Permutation merged merged' ->
  exists fm fm',
    merge_anagrams merged = Ok fm /\
    merge_anagrams merged' = Ok fm' /\
    forall r rec r' rec',
      In (r, rec) fm -> In (r', rec') fm' -> signature r = signature r' ->
      exists a a',
        entry_avg rec = Some a /\ entry_avg rec' = Some a' /\ (a == a')%Q.
Proof.
  intros Hnd Hw Hperm.
  assert (Hnd' : NoDup (od_keys merged')).
  { apply (Permutation_NoDup (Permutation_map fst Hperm) Hnd). }
  assert (Hw' : forall k rec, In (k, rec) merged' -> weighty rec).
  { intros k rec Hin. apply (Hw k).
    apply (Permutation_in _ (Permutation_sym Hperm) Hin). }
  destruct (merge_anagrams_wsum merged Hnd Hw) as (fm & Hrun & Hinto & Hsum).
  destruct (merge_anagrams_wsum merged' Hnd' Hw') as (fm' & Hrun' & Hinto' & Hsum').
  exists fm, fm'. split; [exact Hrun|]. split; [exact Hrun'|].
  intros r rec r' rec' Hin Hin' Hsig.
  destruct (merge_anagrams_weighty merged fm Hw Hrun r rec Hin) as [_ Hpos].
  apply (In_od_get _ _ _ (merged_into_NoDup _ _ Hinto)) in Hin.
  apply (In_od_get _ _ _ (merged_into_NoDup _ _ Hinto')) in Hin'.
  destruct (Hsum r rec Hin) as (a & Ha & Hs).
  destruct (Hsum' r' rec' Hin') as (a' & Ha' & Hs').
  destruct Hinto as [_ Hrec]. destruct (Hrec r rec Hin) as [_ Hc].
  destruct Hinto' as [_ Hrec']. destruct (Hrec' r' rec' Hin') as [_ Hc'].
  exists a, a'. split; [exact Ha|]. split; [exact Ha'|].
  assert (Ecnt : entry_cnt rec' = entry_cnt rec).
  { rewrite Hc, Hc', Hsig. symmetry. now apply group_weight_perm. }
  rewrite Ecnt, <- Hsig, <- (group_wsum_perm merged merged' _ Hperm), <- Hs in Hs'.
  assert (Hq : (0 < inject_Z (entry_cnt rec))%Q).
  { change 0%Q with (inject_Z 0). rewrite <- Zlt_Qlt. lia. }
  apply (Qmult_inj_r a a' (inject_Z (entry_cnt rec))); [lra|].
  now symmetry.
Qed.

Lemma merge_average_order_independent_witness :
  let merged : odict (entry Q) :=
    [("jowar", ("Jowar", Some 50%Q, 4)); ("jawor", ("jawor", Some 70%Q, 6))] in
  let merged' : odict (entry Q) :=
    [("jawor", ("jawor", Some 70%Q, 6)); ("jowar", ("Jowar", Some 50%Q, 4))] in
  NoDup (od_keys merged) /\
  (forall k rec, In (k, rec) merged -> weighty rec) /\
  Permutation merged merged' /\
  exists fm fm',
    merge_anagrams merged = Ok fm /\
    merge_anagrams merged' = Ok fm' /\
    forall r rec r' rec',
      In (r, rec) fm -> In (r', rec') fm' -> signature r = signature r' ->
      exists a a',
        entry_avg rec = Some a /\ entry_avg rec' = Some a' /\ (a == a')%Q.
Proof.
  cbv zeta.
  assert (Hnd : NoDup (od_keys (V := entry Q)
                         [("jowar", ("Jowar", Some 50%Q, 4));
                          ("jawor", ("jawor", Some 70%Q, 6))])).
  { cbn. repeat constructor; cbn; intuition discriminate. }
  assert (Hw : forall k rec,
             In (k, rec) [("jowar", ("Jowar", Some 50%Q, 4));
                          ("jawor", ("jawor", Some 70%Q, 6))] ->
             weighty rec).
  { intros k rec [H|[H|[]]]; injection H as _ <-; split; cbn;
      try discriminate; lia. }
  assert (Hp : Permutation (A := string * entry Q)
                 [("jowar", ("Jowar", Some 50%Q, 4));
                  ("jawor", ("jawor", Some 70%Q, 6))]
                 [("jawor", ("jawor", Some 70%Q, 6));
                  ("jowar", ("Jowar", Some 50%Q, 4))]) by apply perm_swap.
  split; [exact Hnd|]. split; [exact Hw|]. split; [exact Hp|].
  exact (merge_average_order_independent _ _ Hnd Hw Hp).
Defined.

(** ** What [compute_top10] returns *)


(** X15: the cut to ten keeps the greatest averages: the sorted matches are
    the ten returned followed by those dropped, together they are the
    matches, and no dropped match has an observed average greater than a
    returned one; in exact arithmetic for every list of matches, on doubles
    for every list without a NaN average.  Of twelve matches the two with
    the least averages are dropped, whatever their thresholds. *)
Theorem top10_keeps_greatest :
  (forall matched : list (ranked Q),
     let dropped := skipn 10 (sort_desc matched) in
     Permutation (top10 matched ++ dropped) matched /\
     (List.length dropped = List.length matched - 10)%nat /\
     forall x y, In x (top10 matched) -> In y dropped ->
       (result_avg y <= result_avg x)%Q) /\
  (forall matched : list (ranked float),
     Forall (fun x => not_nan (result_avg x)) matched ->
     let dropped := skipn 10 (sort_desc (N := binary64) matched) in
     Permutation (top10 (N := binary64) matched ++ dropped) matched /\
     (List.length dropped = List.length matched - 10)%nat /\
     forall x y, In x (top10 (N := binary64) matched) -> In y dropped ->
       PrimFloat.leb (result_avg y) (result_avg x) = true) /\
  (let matched :=
     [("a", 1, 90); ("b", 12, 0); ("c", 3, 7); ("d", 2, 60); ("e", 5, 5);
      ("f", 4, 4); ("g", 6, 3); ("h", 7, 2); ("i", 8, 1); ("j", 9, 0);
      ("k", 10, 0); ("l", 11, 0)]%Q in
   map fst (map fst (top10 matched))
   = ["b"; "l"; "k"; "j"; "i"; "h"; "g"; "e"; "f"; "c"] /\
   map fst (map fst (skipn 10 (sort_desc matched))) = ["d"; "a"]).
Proof.
  split; [|split].
  - intros matched. cbv zeta.
    apply (top10_greatest _ _ _ exact_sort_laws matched).
    apply Forall_forall. trivial.
  - intros matched Hok. cbv zeta.
    apply (top10_greatest _ _ _ binary64_sort_laws matched Hok).
  - cbv zeta. split; vm_compute; reflexivity.
Qed.

Section ResultFacts.

Context {F : Type} {N : Number F}.

Lemma insert_desc_perm_any (x : ranked F) l :
  Permutation (insert_desc x l) (x :: l).
Proof.
  induction l as [|y l IH]; cbn [insert_desc]; auto.
  destruct (nlt (sort_key x) (sort_key y)); auto.
  apply perm_trans with (y :: x :: l); [now apply perm_skip|apply perm_swap].
Qed.

Lemma sort_desc_perm_any (l : list (ranked F)) : Permutation (sort_desc l) l.
Proof.
  induction l as [|x l IH]; cbn [sort_desc fold_right]; auto.
  fold (sort_desc l). apply perm_trans with (x :: sort_desc l);
    [apply insert_desc_perm_any|now apply perm_skip].
Qed.

Lemma top10_In (matched : list (ranked F)) x :
  In x (top10 matched) -> In x matched.
Proof.
  intros H. apply firstn_incl in H.
  apply (Permutation_in _ (sort_desc_perm_any matched) H).
Qed.

Lemma firstn_NoDup {A : Type} n (l : list A) : NoDup l -> NoDup (firstn n l).
Proof.
  revert n. induction l as [|x l IH]; intros [|n] H; cbn [firstn];
    try constructor; inversion H; subst; auto.
  intros Hin. now apply firstn_incl in Hin.
Qed.

(** The entries [load_day_averages] files under a key have a name that is
    not empty and whose lower-case form is the key. *)
Lemma load_day_entries_key (rows : list (entry F)) k es e :
  In (k, es) (load_day_averages rows) -> In e es ->
  entry_name e <> "" /\ lower (entry_name e) = k.
Proof.
  revert k es e. induction rows as [|[[crop avg] cnt] rows IH] using rev_ind;
    intros k es e Hin He; [destruct Hin|].
  rewrite load_day_averages_snoc in Hin. unfold load_day_step in Hin.
  destruct (String.eqb_spec crop "") as [_|Hne]; [now apply (IH k es)|].
  destruct (od_get (load_day_averages rows) (lower crop)) as [l|] eqn:E;
    apply od_set_In in Hin as [Hin|Hin]; try (now apply (IH k es));
    injection Hin as -> ->.
  - apply in_app_or in He as [He|[<-|[]]]; [|now split].
    apply (IH (lower crop) l e); [now apply od_get_In|assumption].
  - destruct He as [<-|[]]. now split.
Qed.

(** Every record of [final_merged] is stored under the lower-case form of
    its name, which is the name of a row. *)
Lemma final_names (rows : list (entry F)) :
  exists merged fm,
    aggregate (load_day_averages rows) = Ok merged /\
    merge_anagrams merged = Ok fm /\
    merged_into merged fm /\
    forall r rec, In (r, rec) fm ->
      entry_name rec <> "" /\ lower (entry_name rec) = r /\
      exists e, In e rows /\ entry_name e = entry_name rec.
Proof.
  destruct (stages_run rows) as (merged & fm & Hagg & [_ Hfrom] & Hrun & Hinto).
  exists merged, fm. split; [exact Hagg|]. split; [exact Hrun|].
  split; [exact Hinto|]. intros r rec Hin.
  apply (In_od_get _ _ _ (merged_into_NoDup _ _ Hinto)) in Hin.
  destruct Hinto as [_ Hrec].
  destruct (Hrec r rec Hin) as ((a0 & c0 & Hm) & _).
  destruct (Hfrom _ _ Hm) as (entries & Hday & Hkey).
  apply aggregate_key_name_In in Hkey as (e & He & Hname).
  cbn [entry_name fst] in Hname.
  destruct (load_day_entries_key rows r entries e Hday He) as [Hne Hlow].
  fold (entry_name rec) in Hname. rewrite Hname in Hne, Hlow.
  split; [exact Hne|]. split; [exact Hlow|].
  exists e. split; [|exact Hname].
  now apply (load_day_averages_rows rows r entries).
Qed.

Lemma candidate_signature (peak : odict F) (kv : string * entry F) x :
  lower (entry_name (snd kv)) = fst kv ->
  In x (candidate peak kv) ->
  signature (lower (fst (fst x))) = signature (fst kv).
Proof.
  destruct x as [[name a] thr]. intros Hlow Hin.
  apply candidate_In in Hin as (cnt & Hrec & _).
  rewrite Hrec in Hlow. cbn [entry_name fst] in *. now rewrite Hlow.
Qed.

Lemma candidates_distinct (peak : odict F) (fm : odict (entry F)) :
  NoDup (map signature (od_keys fm)) ->
  (forall kv, In kv fm -> lower (entry_name (snd kv)) = fst kv) ->
  NoDup (map (fun x : ranked F => signature (lower (fst (fst x))))
           (flat_map (candidate peak) fm)).
Proof.
  induction fm as [|kv fm IH]; intros Hnd Hlow; [constructor|].
  cbn [od_keys map] in Hnd. inversion Hnd as [|? ? Hfresh Hnd']; subst.
  assert (Htail : NoDup (map (fun x : ranked F => signature (lower (fst (fst x))))
                           (flat_map (candidate peak) fm))).
  { apply IH; auto. intros kv' H. apply Hlow. now right. }
  cbn [flat_map]. unfold candidate at 1.
  destruct (entry_avg (snd kv)) as [a|]; [|exact Htail].
  destruct (od_get peak (fst kv)) as [thr|]; [|exact Htail].
  destruct (nge a thr); [|exact Htail].
  cbn [app map fst]. rewrite (Hlow kv (or_introl eq_refl)).
  constructor; [|exact Htail].
  intros Hin. apply Hfresh.
  apply in_map_iff in Hin as (x & Hx & Hin).
  apply in_flat_map in Hin as (kv' & Hkv' & Hc).
  apply candidate_signature in Hc; [|apply Hlow; now right].
  rewrite <- Hx, Hc. apply in_map. now apply (in_map fst).
Qed.

End ResultFacts.

(** X16: every result [(name, average, threshold)] of [compute_top10] is
    justified by its inputs: the name is the non-empty crop name of a row
    of the day averages, the threshold is the one the threshold table holds
    for the lower-case form of that name, and the average is greater than or
    equal to the threshold (by the comparison of the arithmetic). *)
Theorem results_sound {F : Type} {N : Number F}
  (rows : list (entry F)) (peak_rows : list (string * option F)) :
  exists results,
    compute_top10 rows peak_rows = Ok results /\
    forall name a thr, In (name, a, thr) results ->
      nge a thr = true /\
      od_get (load_peak_values peak_rows) (lower name) = Some thr /\
      name <> "" /\
      exists r, In r rows /\ entry_name r = name.
Proof.
  destruct (final_names rows) as (merged & fm & Hagg & Hrun & _ & Hnames).
  exists (top10 (flat_map (candidate (load_peak_values peak_rows)) fm)). split.
  - unfold compute_top10. cbv zeta. rewrite Hagg. cbn [bind]. rewrite Hrun.
    cbn [bind]. now rewrite threshold_filter_candidates.
  - intros name a thr Hin. apply top10_In in Hin.
    apply in_flat_map in Hin as ([r rec] & Hfm & Hc).
    apply candidate_In in Hc as (cnt & Hrec & Hthr & Hge).
    cbn [fst snd] in Hrec, Hthr. subst rec.
    destruct (Hnames r _ Hfm) as (Hne & Hlow & e & He & Hname).
    cbn [entry_name fst] in Hne, Hlow, Hname.
    split; [exact Hge|]. split; [now rewrite Hlow|]. split; [exact Hne|].
    exists e. now split.
Qed.

(** X17: no crop is returned twice by [compute_top10]: the lower-case names
    of the results have pairwise distinct sorted letters, so no two results
    are the same crop up to case or anagrams of one another. *)
Theorem results_distinct_crops {F : Type} {N : Number F}
  (rows : list (entry F)) (peak_rows : list (string * option F)) :
  exists results,
    compute_top10 rows peak_rows = Ok results /\
    NoDup (map (fun x : ranked F => signature (lower (fst (fst x)))) results).
Proof.
  destruct (final_names rows) as (merged & fm & Hagg & Hrun & Hinto & Hnames).
  exists (top10 (flat_map (candidate (load_peak_values peak_rows)) fm)). split.
  - unfold compute_top10. cbv zeta. rewrite Hagg. cbn [bind]. rewrite Hrun.
    cbn [bind]. now rewrite threshold_filter_candidates.
  - unfold top10. rewrite <- firstn_map. apply firstn_NoDup.
    apply (Permutation_NoDup
             (Permutation_map _ (Permutation_sym (sort_desc_perm_any _)))).
    apply candidates_distinct.
    + destruct Hinto as [-> _]. apply representatives_NoDup.
    + intros [r rec] Hin. now destruct (Hnames r rec Hin) as (_ & Hlow & _).
Qed.
